(** * Task-orchestration core: task decomposer, knowledge graph, context compressor

    A shallow embedding of the TypeScript sources
    - [TaskDecomposer] (task decomposition and execution planning),
    - [KnowledgeGraphService] (relevance queries over the project graph),
    - [ContextCompressor] (budgeted packing of context components),
    together with the properties of the design document that concern them. *)

From Stdlib Require Import ZArith QArith Lqa Ascii String Permutation Relations Sorted.
From stdpp Require Import gmap strings list fin_maps pretty sorting.

Close Scope Q_scope.
Open Scope Z_scope.
Open Scope nat_scope.
Open Scope string_scope.
Open Scope list_scope.

(* ===================================================================== *)
(** * JavaScript containers and values used by the sources *)
(* ===================================================================== *)

Module Js.

(** ** [Map<string, V>]: keys are kept in insertion order; [set] on a key
    that is already present overwrites the value and keeps the position. *)
Section JsMap.
Context {V : Type}.

Fixpoint map_set (k : string) (v : V) (m : list (string * V)) : list (string * V) :=
  match m with
  | [] => [(k, v)]
  | (k', v') :: m' =>
      if decide (k' = k) then (k, v) :: m' else (k', v') :: map_set k v m'
  end.

Fixpoint map_get (k : string) (m : list (string * V)) : option V :=
  match m with
  | [] => None
  | (k', v') :: m' => if decide (k' = k) then Some v' else map_get k m'
  end.

Definition map_has (k : string) (m : list (string * V)) : bool :=
  match map_get k m with Some _ => true | None => false end.

Definition map_keys (m : list (string * V)) : list string := m.*1.

(** [m.get(k)?.f()] where [f] updates the stored object in place. *)
Fixpoint map_update (k : string) (f : V → V) (m : list (string * V)) : list (string * V) :=
  match m with
  | [] => []
  | (k', v') :: m' =>
      if decide (k' = k) then (k', f v') :: m' else (k', v') :: map_update k f m'
  end.
End JsMap.

(** ** [Set<string>]: elements are kept in insertion order, without
    repetition. *)
Definition set_has (x : string) (s : list string) : bool := bool_decide (x ∈ s).

Definition set_add (x : string) (s : list string) : list string :=
  if set_has x s then s else s ++ [x].

Definition set_delete (x : string) (s : list string) : list string :=
  filter (λ y, y ≠ x) s.

(** ** [Array.prototype.sort] with a comparator: the sort is stable, so for a
    consistent comparator the result is the stable arrangement computed here.
    [before y x = true] says that the comparator puts [y] strictly before
    [x]. *)
Section Sort.
Context {A : Type} (before : A → A → bool).

Fixpoint sort_insert (x : A) (l : list A) : list A :=
  match l with
  | [] => [x]
  | y :: l' => if before y x then y :: sort_insert x l' else x :: y :: l'
  end.

Definition array_sort (l : list A) : list A := foldr sort_insert [] l.
End Sort.

(** ** [Array.prototype.slice(0, end)]: a negative [end] counts from the end
    of the array. *)
Definition slice0 {A : Type} (stop : Z) (l : list A) : list A :=
  if decide (0 ≤ stop)%Z then take (Z.to_nat stop) l
  else take (length l - Z.to_nat (- stop)) l.

(** ** Values of type [any], as far as the sources inspect them. Numbers
    that occur in these fields (priority, retries, timestamp) are integers. *)
Inductive Value :=
  | Undefined
  | Null
  | Bool (b : bool)
  | Num (n : Z)
  | Str (s : string)
  | StrArray (l : list string).

(** Truthiness, as tested by [||], [&&] and [if]. *)
Definition truthy (v : Value) : bool :=
  match v with
  | Undefined | Null => false
  | Bool b => b
  | Num n => negb (n =? 0)%Z
  | Str s => negb (String.eqb s EmptyString)
  | StrArray _ => true
  end.

(** [a || b]. *)
Definition or_else (a b : Value) : Value := if truthy a then a else b.

(** String conversion in a template literal. *)
Definition toString (v : Value) : string :=
  match v with
  | Undefined => "undefined"
  | Null => "null"
  | Bool true => "true"
  | Bool false => "false"
  | Num n => pretty n
  | Str s => s
  | StrArray l => String.concat "," l
  end.

(** ** Strings (ASCII): [toLowerCase], [includes], and the character classes
    [\w] and [\s] of regular expressions. *)
Definition lower (c : ascii) : ascii :=
  let n := nat_of_ascii c in
  if (65 <=? n)%nat && (n <=? 90)%nat then ascii_of_nat (n + 32) else c.

Fixpoint toLowerCase (s : string) : string :=
  match s with
  | EmptyString => EmptyString
  | String c s' => String (lower c) (toLowerCase s')
  end.

Fixpoint includes (s sub : string) : bool :=
  String.prefix sub s ||
  match s with
  | EmptyString => false
  | String _ s' => includes s' sub
  end.

Definition is_word (c : ascii) : bool :=
  let n := nat_of_ascii c in
  ((48 <=? n)%nat && (n <=? 57)%nat) || ((65 <=? n)%nat && (n <=? 90)%nat) ||
  ((97 <=? n)%nat && (n <=? 122)%nat) || (n =? 95)%nat.

Definition is_space (c : ascii) : bool :=
  let n := nat_of_ascii c in
  ((9 <=? n)%nat && (n <=? 13)%nat) || (n =? 32)%nat.

(** [s.replace(/[^\w\s]/g, '')]. *)
Fixpoint strip_punctuation (s : string) : string :=
  match s with
  | EmptyString => EmptyString
  | String c s' =>
      if is_word c || is_space c then String c (strip_punctuation s')
      else strip_punctuation s'
  end.

(** [s.split(/\s+/)]: the pieces between maximal runs of white space; a
    leading or trailing run leaves an empty first or last piece. [cur] is the
    piece being read (reversed), [in_run] tells that the previous character
    was white space. *)
Fixpoint split_spaces_from (s : string) (cur : list ascii) (in_run : bool) : list string :=
  match s with
  | EmptyString => [string_of_list_ascii (rev cur)]
  | String c s' =>
      if is_space c then
        if in_run then split_spaces_from s' cur true
        else string_of_list_ascii (rev cur) :: split_spaces_from s' [] true
      else split_spaces_from s' (c :: cur) false
  end.

Definition split_spaces (s : string) : list string := split_spaces_from s [] false.

(** ** Numbers that may be [NaN] ([0/0]); finite values are kept exact. *)
Inductive Number :=
  | NaN
  | Fin (q : Q).

(** [a / b] for counts [a ≤ b]. *)
Definition divide (a b : nat) : Number :=
  if (b =? 0)%nat then NaN else Fin (Z.of_nat a # Pos.of_nat b).

Definition plus (a b : Number) : Number :=
  match a, b with
  | Fin p, Fin q => Fin (p + q)
  | _, _ => NaN
  end.

(** [a > 0]. *)
Definition above_zero (a : Number) : bool :=
  match a with
  | Fin p => negb (Qle_bool p 0)
  | NaN => false
  end.

(** [a - b < 0]. *)
Definition less (a b : Number) : bool :=
  match a, b with
  | Fin p, Fin q => negb (Qle_bool q p)
  | _, _ => false
  end.

(** ** Outcome of a call that may throw. *)
Inductive Error :=
  | TypeError (what : string)
  | PlainError (message : string).

Inductive Completion (A : Type) :=
  | Return (a : A)
  | Throw (e : Error).
Arguments Return {A} a.
Arguments Throw {A} e.

End Js.

(* ===================================================================== *)
(** * TaskDecomposer *)
(* ===================================================================== *)

Module TaskDecomposer.
Import Js.

(** ** Task records as [buildExecutionPlan] reads them *)

Record Metadata := {
  taskId : string;
  taskName : string;
  taskType : string;
  priority : Z;
  dependencies : option (list string);   (* [None]: the field is absent *)
  status : string;
  retries : Z
}.

Record OrchestrationMessage := {
  content : string;
  metadata : Metadata
}.

(** The two graphs that [buildExecutionPlan] fills in. *)
Record Graphs := {
  dependencyGraph : list (string * list string);
  dependentsGraph : list (string * list string)
}.

(** The mutable locals of the topological sort. *)
Record VisitState := {
  executionOrder : list OrchestrationMessage;
  visited : list string;
  temp : list string
}.

(** Result of the recursive [visit]: normal completion, the thrown cycle
    error (with the task id of its message), or exhaustion of the recursion
    budget of the model. *)
Inductive Outcome (A : Type) :=
  | Done (a : A)
  | Thrown (e : Error)
  | OutOfFuel.
Arguments Done {A} a.
Arguments Thrown {A} e.
Arguments OutOfFuel {A}.

Definition outcome_map {A B : Type} (f : A → B) (o : Outcome A) : Outcome B :=
  match o with
  | Done a => Done (f a)
  | Thrown e => Thrown e
  | OutOfFuel => OutOfFuel
  end.

(** [new Error(`Dependency cycle detected involving task ${taskId}`)]. *)
Definition CycleError (taskId : string) : Error :=
  PlainError ("Dependency cycle detected involving task " ++ taskId).

(** [for (const x of xs) body(x)] where [body] may throw. *)
Fixpoint for_each {S : Type} (body : string → S → Outcome S) (xs : list string) (st : S)
  : Outcome S :=
  match xs with
  | [] => Done st
  | x :: xs' =>
      match body x st with
      | Done st' => for_each body xs' st'
      | Thrown e => Thrown e
      | OutOfFuel => OutOfFuel
      end
  end.

Section BuildExecutionPlan.
Variable tasks : list OrchestrationMessage.

(** [taskMap]: task ids to tasks. *)
Definition taskMap : list (string * OrchestrationMessage) :=
  fold_left (λ m task, map_set (taskId (metadata task)) task m) tasks [].

(** Initialize graphs. *)
Definition initGraphs : Graphs :=
  fold_left
    (λ g task,
       {| dependencyGraph := map_set (taskId (metadata task)) [] (dependencyGraph g);
          dependentsGraph := map_set (taskId (metadata task)) [] (dependentsGraph g) |})
    tasks
    {| dependencyGraph := []; dependentsGraph := [] |}.

(** Populate dependency relationships. *)
Definition addDependency (tid : string) (g : Graphs) (depId : string) : Graphs :=
  if map_has depId taskMap then
    {| dependencyGraph := map_update tid (set_add depId) (dependencyGraph g);
       dependentsGraph := map_update depId (set_add tid) (dependentsGraph g) |}
  else g.

Definition populate (g : Graphs) (task : OrchestrationMessage) : Graphs :=
  fold_left (addDependency (taskId (metadata task)))
            (default [] (dependencies (metadata task))) g.

Definition graphs : Graphs := fold_left populate tasks initGraphs.

(** The recursive closure [visit]. *)
Fixpoint visit (fuel : nat) (tid : string) (st : VisitState) : Outcome VisitState :=
  match fuel with
  | O => OutOfFuel
  | S fuel' =>
      if set_has tid (temp st) then Thrown (CycleError tid)
      else if set_has tid (visited st) then Done st
      else
        let st1 := {| executionOrder := executionOrder st;
                      visited := visited st;
                      temp := set_add tid (temp st) |} in
        let deps := default [] (map_get tid (dependencyGraph graphs)) in
        match for_each (visit fuel') deps st1 with
        | Done st2 =>
            Done {| executionOrder :=
                      match map_get tid taskMap with
                      | Some task => executionOrder st2 ++ [task]
                      | None => executionOrder st2
                      end;
                    visited := set_add tid (visited st2);
                    temp := set_delete tid (temp st2) |}
        | Thrown e => Thrown e
        | OutOfFuel => OutOfFuel
        end
  end.

(** Visit all tasks. *)
Definition visitAll (fuel : nat) : Outcome VisitState :=
  for_each
    (λ tid st, if set_has tid (visited st) then Done st else visit fuel tid st)
    (map_keys taskMap)
    {| executionOrder := []; visited := []; temp := [] |}.

(** The recursion of [visit] is at most one deeper than the number of
    tasks: every nested call has one more task id in [temp]. *)
Definition buildExecutionPlan : Outcome (list OrchestrationMessage) :=
  outcome_map (λ st, reverse (executionOrder st)) (visitAll (S (length tasks))).
End BuildExecutionPlan.

(** ** Candidate tasks of type [any] and their normalization *)

Record AnyTask := {
  any_content : Value;                           (* [task.content] *)
  any_metadata : option (gmap string Value)      (* [task.metadata], if present *)
}.

Record EnrichedTask := {
  enriched_content : Value;
  enriched_metadata : gmap string Value
}.

(** [task.metadata?.key]. *)
Definition metadataField (task : AnyTask) (key : string) : Value :=
  match any_metadata task with
  | Some md => default Undefined (md !! key)
  | None => Undefined
  end.

(** Infer the appropriate worker type based on task description. *)
Definition inferWorkerType (taskName description : string) : string :=
  let normalizedText := toLowerCase (taskName ++ " " ++ description) in
  if includes normalizedText "scan" || includes normalizedText "project" then
    "project-scan"
  else if includes normalizedText "analyze" || includes normalizedText "static" then
    "static-analysis"
  else if includes normalizedText "depend" || includes normalizedText "package" then
    "dependency-check"
  else if includes normalizedText "innovat" || includes normalizedText "suggest" then
    "innovation-suggestion"
  else if includes normalizedText "knowledge" || includes normalizedText "graph" then
    "knowledge"
  else "local-data".

(** The body of the [map] callback. The object literal lists the computed
    fields first and spreads [task.metadata] last, so a field that the
    caller's metadata carries replaces the computed one: in the union below
    the left operand wins. *)
Definition validateAndEnrichTask (index : nat) (task : AnyTask) : EnrichedTask :=
  let taskId := or_else (metadataField task "taskId") (Str ("task-" ++ pretty (index + 1)%nat)) in
  let taskName := or_else (metadataField task "taskName") (Str ("Task " ++ pretty (index + 1)%nat)) in
  let taskType :=
    or_else (metadataField task "taskType")
            (Str (inferWorkerType (toString taskName) (toString (any_content task)))) in
  {| enriched_content :=
       or_else (any_content task) (Str ("Execute task: " ++ toString taskName));
     enriched_metadata :=
       default ∅ (any_metadata task) ∪
       (<["taskId" := taskId]>
        (<["taskName" := taskName]>
         (<["taskType" := taskType]>
          (<["priority" := or_else (metadataField task "priority") (Num 1)]>
           (<["dependencies" := or_else (metadataField task "dependencies") (StrArray [])]>
            (<["status" := Str "pending"]>
             (<["retries" := Num 0]> ∅))))))) |}.

Definition validateAndEnrichTasks (tasks : list AnyTask) : list EnrichedTask :=
  imap validateAndEnrichTask tasks.

(** A candidate that already carries a status and a retry count. *)
Definition finishedTask : AnyTask :=
  {| any_content := Str "Fix bug";
     any_metadata := Some (<["status" := Str "completed"]> (<["retries" := Num 3]> ∅)) |}.

(** A candidate without metadata. *)
Definition bareTask : AnyTask :=
  {| any_content := Str "Scan the project"; any_metadata := None |}.

(** ** Notions of the design document *)

Definition taskIds (tasks : list OrchestrationMessage) : list string :=
  (λ t, taskId (metadata t)) <$> tasks.

(** In-plan dependency: the task with id [x] lists [d] among its
    dependencies, and [d] is the id of a task of the plan. *)
Definition inPlanDependency (tasks : list OrchestrationMessage) (x d : string) : Prop :=
  ∃ t, t ∈ tasks ∧ taskId (metadata t) = x ∧
       d ∈ default [] (dependencies (metadata t)) ∧ d ∈ taskIds tasks.

(** The in-plan dependency relation contains a cycle. *)
Definition cyclic (tasks : list OrchestrationMessage) : Prop :=
  ∃ x, tc (inPlanDependency tasks) x x.

(** A task with its dangling dependency entries (ids that are not in [ids])
    removed. *)
Definition withoutDangling (ids : list string) (t : OrchestrationMessage)
  : OrchestrationMessage :=
  {| content := content t;
     metadata :=
       {| taskId := taskId (metadata t);
          taskName := taskName (metadata t);
          taskType := taskType (metadata t);
          priority := priority (metadata t);
          dependencies := filter (λ d, d ∈ ids) <$> dependencies (metadata t);
          status := status (metadata t);
          retries := retries (metadata t) |} |}.

(** [before plan a b]: [a] occurs in [plan] strictly earlier than [b]. *)
Definition before (plan : list OrchestrationMessage) (a b : string) : Prop :=
  ∃ l1 ta l2 tb l3,
    plan = l1 ++ ta :: l2 ++ tb :: l3 ∧
    taskId (metadata ta) = a ∧ taskId (metadata tb) = b.

(** ** Invariants of the traversal *)

(** The task map, built up from a map [m]. *)
Definition taskMapFrom (m : list (string * OrchestrationMessage))
    (tasks : list OrchestrationMessage) :=
  fold_left (λ m task, map_set (taskId (metadata task)) task m) tasks m.

Section Invariants.
Variable tasks : list OrchestrationMessage.

(** A list in which every element comes after all its in-plan
    dependencies: the post-order that the traversal builds. *)
Inductive topo : list string → Prop :=
  | topo_nil : topo []
  | topo_snoc l x : topo l → (∀ d, inPlanDependency tasks x d → d ∈ l) → topo (l ++ [x]).

(** The set [temp] holds the chain of calls that are in progress: each
    element depends on the next one, the last one on the task being
    visited. *)
Inductive stack : list string → string → Prop :=
  | stack_nil x : stack [] x
  | stack_snoc T y x : stack T y → inPlanDependency tasks y x → stack (T ++ [y]) x.

(** What holds of the locals between two calls of [visit]. *)
Definition Inv (st : VisitState) : Prop :=
  NoDup (visited st) ∧ topo (visited st) ∧
  (∀ z, z ∈ visited st → z ∈ map_keys (taskMap tasks)) ∧
  executionOrder st = omap (λ k, map_get k (taskMap tasks)) (visited st).

(** [st'] extends [st]: same [temp], more visited tasks, none of them
    from [T]. *)
Definition Ext (T : list string) (st st' : VisitState) : Prop :=
  temp st' = temp st ∧ Inv st' ∧
  ∃ new, visited st' = visited st ++ new ∧ ∀ z, z ∈ new → z ∉ T.

(** The three possible results of a call, and what each one means. *)
Definition good (T : list string) (st : VisitState) (xs : list string)
    (o : Outcome VisitState) : Prop :=
  match o with
  | Done st' => Ext T st st' ∧ ∀ x, x ∈ xs → x ∈ visited st'
  | Thrown e => ∃ c, e = CycleError c ∧ tc (inPlanDependency tasks) c c
  | OutOfFuel => False
  end.

(** The traversal of the plan without its dangling entries runs in lock
    step with the traversal of the plan itself. *)
Definition stmap (st : VisitState) : VisitState :=
  {| executionOrder := withoutDangling (taskIds tasks) <$> executionOrder st;
     visited := visited st;
     temp := temp st |}.

End Invariants.

(** ** Example plans *)
Definition mkTask (tid : string) (deps : list string) : OrchestrationMessage :=
  {| content := "Execute task: " ++ tid;
     metadata := {| taskId := tid; taskName := tid; taskType := "local-data";
                    priority := 1; dependencies := Some deps;
                    status := "pending"; retries := 0 |} |}.


(** Task 2 depends on task 1. *)
Definition twoTasks : list OrchestrationMessage :=
  [mkTask "task-1" []; mkTask "task-2" ["task-1"]].

(** Two tasks that depend on each other. *)
Definition mutualTasks : list OrchestrationMessage :=
  [mkTask "a" ["b"]; mkTask "b" ["a"]].

(** A plan with a dangling entry ([zz]) and one in-plan dependency. *)
Definition danglingTasks : list OrchestrationMessage :=
  [mkTask "a" ["zz"; "b"]; mkTask "b" []].

(** ** Further notions *)

(** The last task of the list that has the id [x]. *)
Definition lastWithId (x : string) (tasks : list OrchestrationMessage)
  : option OrchestrationMessage :=
  last (filter (λ t, taskId (metadata t) = x) tasks).


(** A candidate that brings its own priority and an extra field. *)
Definition taggedTask : AnyTask :=
  {| any_content := Str "Check packages";
     any_metadata := Some (<["priority" := Num 0]> (<["owner" := Str "ops"]> ∅)) |}.

(** A task with another priority. *)
Definition withPriority (p : Z) (t : OrchestrationMessage) : OrchestrationMessage :=
  {| content := content t;
     metadata :=
       {| taskId := taskId (metadata t);
          taskName := taskName (metadata t);
          taskType := taskType (metadata t);
          priority := p;
          dependencies := dependencies (metadata t);
          status := status (metadata t);
          retries := retries (metadata t) |} |}.

(** The locals of the traversal, with every task of [executionOrder]
    changed by [f]. *)
Definition mapOrder (f : OrchestrationMessage → OrchestrationMessage) (st : VisitState)
  : VisitState :=
  {| executionOrder := f <$> executionOrder st;
     visited := visited st;
     temp := temp st |}.

(** ** [parseDependencies]

    The pattern of the source has two alternatives and the flags [g] and
    [i]: an optional group of [Task] and any white space, then the digits
    (group 1); or a run of characters of the class [[a-z-_]] (group 2). It is
    applied again and again from the end of the previous match. At a
    position the first
    alternative is tried first: an optional [Task] (in any letter case) with
    the white space after it, then a maximal run of digits; if [Task] is
    there but no digit follows, the optional part is given up and the digits
    must start at the position itself. The second alternative is a maximal
    run of letters, hyphens and underscores. Where neither matches, the
    search moves on by one character. Both alternatives are greedy and match
    at least one character. *)

Definition is_digit (c : ascii) : bool :=
  let n := nat_of_ascii c in (48 <=? n)%nat && (n <=? 57)%nat.

(** The class [[a-z-_]] under the flag [i]. *)
Definition is_ref (c : ascii) : bool :=
  let n := nat_of_ascii c in
  ((65 <=? n)%nat && (n <=? 90)%nat) || ((97 <=? n)%nat && (n <=? 122)%nat) ||
  (n =? 45)%nat || (n =? 95)%nat.

(** The longest prefix of [s] whose characters satisfy [p], and the rest. *)
Fixpoint span (p : ascii → bool) (s : string) : string * string :=
  match s with
  | EmptyString => (EmptyString, EmptyString)
  | String c s' =>
      if p c then let (run, rest) := span p s' in (String c run, rest)
      else (EmptyString, s)
  end.

(** A greedy [+]: the prefix must not be empty. *)
Definition run (p : ascii → bool) (s : string) : option (string * string) :=
  match span p s with
  | (EmptyString, _) => None
  | (r, rest) => Some (r, rest)
  end.

(** [Task] at the start of [s], in any letter case: what follows it. *)
Definition afterTask (s : string) : option string :=
  match s with
  | String c1 (String c2 (String c3 (String c4 rest))) =>
      if String.eqb
           (toLowerCase (String c1 (String c2 (String c3 (String c4 EmptyString)))))
           "task"
      then Some rest else None
  | _ => None
  end.

(** The first alternative at the start of [s]: the digits (group 1) and the
    text after the match. *)
Definition matchNumber (s : string) : option (string * string) :=
  match afterTask s with
  | Some rest =>
      match run is_digit (span is_space rest).2 with
      | Some r => Some r
      | None => run is_digit s
      end
  | None => run is_digit s
  end.

(** The second alternative at the start of [s]: the name (group 2) and the
    text after the match. *)
Definition matchName (s : string) : option (string * string) := run is_ref s.

(** The [while] loop over the matches; every round consumes at least one
    character, so as many rounds as [depString] has characters suffice. *)
Fixpoint parseDependenciesFrom (fuel : nat) (s : string) : list string :=
  match fuel with
  | O => []
  | S fuel' =>
      match s with
      | EmptyString => []
      | String _ s' =>
          match matchNumber s with
          | Some (digits, rest) =>
              ("task-" ++ digits)%string :: parseDependenciesFrom fuel' rest
          | None =>
              match matchName s with
              | Some (name, rest) => name :: parseDependenciesFrom fuel' rest
              | None => parseDependenciesFrom fuel' s'
              end
          end
      end
  end.

(** Parse dependency string into array of task IDs. *)
Definition parseDependencies (depString : string) : list string :=
  parseDependenciesFrom (String.length depString) depString.

(** The first character of [s] satisfies [p]. *)
Definition startsWith (p : ascii → bool) (s : string) : bool :=
  match s with
  | EmptyString => false
  | String c _ => p c
  end.

(** All characters of [s] satisfy [p]. *)
Definition allChars (p : ascii → bool) (s : string) : Prop :=
  Forall (λ c, p c = true) (list_ascii_of_string s).

End TaskDecomposer.

(* ===================================================================== *)
(** * KnowledgeGraphService *)
(* ===================================================================== *)

Module KnowledgeGraph.
Import Js.

(** Nodes and edges of the graph. The attribute bags [data] are opaque: the
    service copies them and reads node data through [JSON.stringify] only. *)
Record GraphNode (NodeData : Type) := {
  node_id : string;
  node_type : string;
  node_data : NodeData
}.
Arguments node_id {NodeData} _.
Arguments node_type {NodeData} _.
Arguments node_data {NodeData} _.

Record GraphEdge (EdgeData : Type) := {
  edge_from : string;
  edge_to : string;
  edge_type : string;
  edge_data : option EdgeData
}.
Arguments edge_from {EdgeData} _.
Arguments edge_to {EdgeData} _.
Arguments edge_type {EdgeData} _.
Arguments edge_data {EdgeData} _.

(** Modelled from the spec: the Graph store ([utils/graph]) is not among the
    sources. It is a directed, labeled multigraph: a table of nodes, unique
    by id, and a list of edges in which repetitions are kept. *)
Record Graph (NodeData EdgeData : Type) := {
  nodes : list (GraphNode NodeData);
  edges : list (GraphEdge EdgeData)
}.
Arguments nodes {NodeData EdgeData} _.
Arguments edges {NodeData EdgeData} _.

(** Modelled from the spec: [getAllNodes] lists the nodes, [getEdgesFrom]
    lists the edges that leave the given node. *)
Definition getAllNodes {NodeData EdgeData} (g : Graph NodeData EdgeData) :=
  nodes g.

Definition getEdgesFrom {NodeData EdgeData} (g : Graph NodeData EdgeData) (id : string) :=
  filter (λ e, edge_from e = id) (edges g).

(** The query: [taskMessage.content] and [taskMessage.metadata.taskType];
    [None] stands for an absent field. *)
Record QueryMetadata := { taskType : option string }.

Record TaskMessage := {
  content : option string;
  metadata : option QueryMetadata
}.

(** A node with its relevance score. *)
Record ScoredNode (NodeData : Type) := {
  node : GraphNode NodeData;
  relevance : Number
}.
Arguments node {NodeData} _.
Arguments relevance {NodeData} _.

Record Summary := {
  entityCount : nat;
  relationshipCount : nat;
  entityTypes : gmap string nat;
  relationshipTypes : gmap string nat
}.

Record Context (NodeData EdgeData : Type) := {
  entities : list (GraphNode NodeData);
  relationships : list (GraphEdge EdgeData);
  summary : Summary
}.
Arguments entities {NodeData EdgeData} _.
Arguments relationships {NodeData EdgeData} _.
Arguments summary {NodeData EdgeData} _.

(** The locals of [buildContextFromNodes] while it walks the nodes. *)
Record Building (NodeData EdgeData : Type) := {
  b_entities : list (GraphNode NodeData);
  b_relationships : list (GraphEdge EdgeData);
  includedNodeIds : list string
}.
Arguments b_entities {NodeData EdgeData} _.
Arguments b_relationships {NodeData EdgeData} _.
Arguments includedNodeIds {NodeData EdgeData} _.

(** Extract keywords from query text. *)
Definition stopWords : list string := ["the"; "and"; "that"; "have"; "for"; "with"].

Definition extractKeywords (query : string) : list string :=
  filter (λ word, word ∉ stopWords)
    (filter (λ word, (3 < String.length word)%nat)
       (split_spaces (strip_punctuation (toLowerCase query)))).

(** Count items by their [type] property. *)
Definition countByType (types : list string) : gmap string nat :=
  fold_left (λ counts ty, <[ty := (default 0 (counts !! ty) + 1)%nat]> counts) types ∅.

Section Service.
Context {NodeData EdgeData : Type}.
(** [JSON.stringify] on node data. *)
Variable JSON_stringify : NodeData → string.
(** [this.graph]. *)
Variable graph : Graph NodeData EdgeData.

(** The task-type bonus of a node. *)
Definition taskTypeRelevance (taskType : option string) (n : GraphNode NodeData) : Number :=
  match taskType with
  | Some ty =>
      if negb (String.eqb ty EmptyString) then
        if String.eqb ty "dependency-check" && String.eqb (node_type n) "dependency"
        then Fin (1 # 2)
        else if String.eqb ty "static-analysis" && String.eqb (node_type n) "codeEntity"
        then Fin (1 # 2)
        else Fin 0
      else Fin 0
  | None => Fin 0
  end.

(** Find relevant nodes based on keywords and task type. *)
Definition scoreNode (keywords : list string) (taskType : option string)
    (relevantNodes : list (ScoredNode NodeData)) (n : GraphNode NodeData)
  : list (ScoredNode NodeData) :=
  let nodeText := toLowerCase (JSON_stringify (node_data n)) in
  let keywordMatches := length (filter (λ keyword, includes nodeText keyword = true) keywords) in
  let relevance := divide keywordMatches (length keywords) in
  let bonus := taskTypeRelevance taskType n in
  if above_zero relevance || above_zero bonus then
    relevantNodes ++ [{| node := n; relevance := plus relevance bonus |}]
  else relevantNodes.

Definition findRelevantNodes (keywords : list string) (taskType : option string)
  : list (ScoredNode NodeData) :=
  fold_left (scoreNode keywords taskType) (getAllNodes graph) [].

(** Build context object from relevant nodes: one round of the [forEach]. *)
Definition addNodeToContext (b : Building NodeData EdgeData) (sn : ScoredNode NodeData)
  : Building NodeData EdgeData :=
  let included := set_add (node_id (node sn)) (includedNodeIds b) in
  {| b_entities :=
       b_entities b ++ [{| node_id := node_id (node sn);
                           node_type := node_type (node sn);
                           node_data := node_data (node sn) |}];
     b_relationships :=
       b_relationships b ++
       ((λ edge, {| edge_from := edge_from edge; edge_to := edge_to edge;
                    edge_type := edge_type edge; edge_data := edge_data edge |})
          <$> filter (λ edge, set_has (edge_to edge) included = true)
                (getEdgesFrom graph (node_id (node sn))));
     includedNodeIds := included |}.

Definition buildContextFromNodes (relevantNodes : list (ScoredNode NodeData))
  : Context NodeData EdgeData :=
  let b := fold_left addNodeToContext relevantNodes
             {| b_entities := []; b_relationships := []; includedNodeIds := [] |} in
  {| entities := b_entities b;
     relationships := b_relationships b;
     summary :=
       {| entityCount := length (b_entities b);
          relationshipCount := length (b_relationships b);
          entityTypes := countByType (node_type <$> b_entities b);
          relationshipTypes := countByType (edge_type <$> b_relationships b) |} |}.

(** Extract most relevant context for a given task. Reading
    [taskMessage.content.toLowerCase()] throws a [TypeError] when the
    message has no [content]. *)
Definition getRelevantContext (taskMessage : TaskMessage) (maxNodes : Z)
  : Completion (Context NodeData EdgeData) :=
  match content taskMessage with
  | None => Throw (TypeError "Cannot read properties of undefined (reading 'toLowerCase')")
  | Some text =>
      let query := toLowerCase text in
      let taskType :=
        match metadata taskMessage with
        | Some md => taskType md
        | None => None
        end in
      let keywords := extractKeywords query in
      let relevantNodes := findRelevantNodes keywords taskType in
      let sorted := array_sort (λ a b, less (relevance b) (relevance a)) relevantNodes in
      let topNodes := slice0 maxNodes sorted in
      Return (buildContextFromNodes topNodes)
  end.
End Service.

(** What the loop of [buildContextFromNodes] maintains. *)
Definition consistent {NodeData EdgeData : Type} (b : Building NodeData EdgeData) : Prop :=
  (∀ x, x ∈ includedNodeIds b ↔ x ∈ node_id <$> b_entities b) ∧
  (∀ r, r ∈ b_relationships b →
        edge_from r ∈ node_id <$> b_entities b ∧ edge_to r ∈ node_id <$> b_entities b).

(** The default of the parameter [maxNodes]. *)
Definition defaultMaxNodes : Z := 20.

(** The empty context. *)
Definition emptyContext {NodeData EdgeData : Type} : Context NodeData EdgeData :=
  {| entities := []; relationships := [];
     summary := {| entityCount := 0; relationshipCount := 0;
                   entityTypes := ∅; relationshipTypes := ∅ |} |}.

(** ** An example graph: two files that both mention the query word, and an
    [imports] edge from the first to the second. Node data is held as its
    JSON text. *)
Definition fileNode (path : string) : GraphNode string :=
  {| node_id := "file:" ++ path; node_type := "file";
     node_data := ("{path:" ++ path ++ "}")%string |}.

Definition importEdge (source target : string) : GraphEdge unit :=
  {| edge_from := "file:" ++ source; edge_to := "file:" ++ target;
     edge_type := "imports"; edge_data := None |}.

Definition twoFiles : Graph string unit :=
  {| nodes := [fileNode "parser-core.ts"; fileNode "parser-util.ts"];
     edges := [importEdge "parser-core.ts" "parser-util.ts"] |}.

(** Three files that all mention the query word; the second and the third
    import the first. *)
Definition threeFiles : Graph string unit :=
  {| nodes := [fileNode "parser-core.ts"; fileNode "parser-util.ts";
               fileNode "parser-test.ts"];
     edges := [importEdge "parser-util.ts" "parser-core.ts";
               importEdge "parser-test.ts" "parser-core.ts"] |}.

Definition parserQuery : TaskMessage :=
  {| content := Some "Refactor the parser"; metadata := None |}.

(** A message without [content]. *)
Definition noContent : TaskMessage :=
  {| content := None; metadata := Some {| taskType := Some "static-analysis" |} |}.

(** ** Notions used to describe the queries *)

(** [(taskMessage.metadata || {}).taskType]. *)
Definition taskTypeOf (taskMessage : TaskMessage) : option string :=
  match metadata taskMessage with
  | Some md => taskType md
  | None => None
  end.

(** The task types for which some node type earns the bonus. *)
Definition bonusTypes : list (option string) :=
  [Some "dependency-check"; Some "static-analysis"].

(** The characters of a string. *)
Definition chars (s : string) : list ascii := list_ascii_of_string s.

(** A lowercase letter, a digit or an underscore. *)
Definition lowerWord (c : ascii) : Prop := is_word c = true ∧ lower c = c.

(** How often [ty] occurs in [types]; nothing when it does not occur: the
    entry of a [Record<string, number>] built by counting. *)
Definition tally (types : list string) (ty : string) : option nat :=
  let n := length (filter (λ t, t = ty) types) in
  if (n =? 0)%nat then None else Some n.

(** A score that is [NaN]. *)
Definition isNaN (a : Number) : bool :=
  match a with NaN => true | Fin _ => false end.

(** [a] does not score below [b]: the comparator of the sort does not put
    [b] strictly before [a]. *)
Definition notBelow {NodeData : Type} (a b : ScoredNode NodeData) : Prop :=
  less (relevance a) (relevance b) = false.

(** A message whose content has no keyword. *)
Definition shortQuery : TaskMessage :=
  {| content := Some "Fix it"; metadata := None |}.

End KnowledgeGraph.

(* ===================================================================== *)
(** * ContextCompressor *)
(* ===================================================================== *)

Module ContextCompressor.
Import Js.

(** One entry of a [dependencies] array. The score is a finite number, kept
    exact. *)
Record Dependency := {
  name : string;
  importanceScore : Q
}.

(** Arrays of dependencies are objects shared between the caller and the
    compressor: a component refers to its array by location, and the store
    gives the current contents of every array. A location that the store
    does not list holds the empty array. *)
Abbreviation loc := positive.
Abbreviation Store := (gmap loc (list Dependency)).

(** A context component: its [type] tag and the fields that the compression
    strategies read. A field that a component does not carry reads as the
    empty string. *)
Record Component := {
  type : string;
  path : string;
  content : string;
  dependencies : loc
}.

(** What the output list holds: an input component as it is, or one of the
    two compressed shapes, both of which carry [isCompressed: true]. *)
Inductive Packed :=
  | Verbatim (component : Component)
  | Summarized (type path summarizedContent : string)
  | TopDependencies (dependencies : list Dependency) (totalCount : nat).

(** The context object: the four essential fields, and the rest, from which
    the prioritizer draws the components. *)
Record Context := {
  userId : Value;
  projectType : Value;
  requestType : Value;
  timestamp : Value;
  rest : list Component
}.

Record EssentialMetadata := {
  e_userId : Value;
  e_projectType : Value;
  e_requestType : Value;
  e_timestamp : Value
}.

(** The result of [compress]: the essential fields (spread into the object)
    and the list [components]. *)
Record CompressedContext := {
  essential : EssentialMetadata;
  components : list Packed
}.

(** Modelled from the spec: the collaborators [TokenCounter],
    [ContextPrioritizer] and [CodeSummarizer] ([utils/]) are not among the
    sources. A token count is a natural number; the prioritizer returns the
    components of a context in priority order; the summarizer shortens a text
    towards a budget. *)
Record TokenCounter := { count : string → nat }.
Record ContextPrioritizer := { prioritize : Context → list Component }.
Record CodeSummarizer := { summarize : string → Z → string }.

(** The fields of the class, and [JSON.stringify] at the two types at which
    the class calls it; the text of a component depends on the current
    contents of its array. *)
Record Compressor := {
  tokenCounter : TokenCounter;
  prioritizer : ContextPrioritizer;
  summarizer : CodeSummarizer;
  stringify_metadata : EssentialMetadata → string;
  stringify_component : Store → Component → string
}.

(** The locals of the loop of [fitComponentsInBudget]; [stopped] records
    that [break] was executed. *)
Record Fitting := {
  result : list Packed;
  usedTokens : Z;
  store : Store;
  stopped : bool
}.

(** The comparator [(a, b) => b.importanceScore - a.importanceScore] puts [a]
    strictly before [b] when [b.importanceScore - a.importanceScore < 0]. *)
Definition moreImportant (a b : Dependency) : bool :=
  negb (Qle_bool (importanceScore a) (importanceScore b)).

Section Methods.
Variable this : Compressor.

(** Extract critical metadata that must be preserved in any context. *)
Definition extractEssentialMetadata (context : Context) : EssentialMetadata :=
  {| e_userId := userId context;
     e_projectType := projectType context;
     e_requestType := requestType context;
     e_timestamp := timestamp context |}.

(** Compress code components using specialized techniques. *)
Definition compressCodeComponent (component : Component) (budget : Z) : option Packed :=
  if (budget <? Z.of_nat (count (tokenCounter this) (content component)))%Z then
    Some (Summarized "code" (path component)
            (summarize (summarizer this) (content component) budget))
  else None.

(** Compress dependencies info to fit in budget. [sort] rearranges the
    array of the component in place; [slice] copies its first entries. *)
Definition compressDependenciesComponent (component : Component) (budget : Z) (h : Store)
  : option Packed * Store :=
  let deps := h !!! dependencies component in
  if (0 <? length deps)%nat then
    let sorted := array_sort moreImportant deps in
    let h' := <[dependencies component := sorted]> h in
    let importantDeps := slice0 (Z.max 1 (budget / 50)) sorted in
    (Some (TopDependencies importantDeps (length (h' !!! dependencies component))), h')
  else (None, h).

(** Compress documentation to fit in budget. *)
Definition compressDocumentationComponent (component : Component) (budget : Z)
  : option Packed :=
  if negb (String.eqb (content component) EmptyString) &&
     (budget <? Z.of_nat (count (tokenCounter this) (content component)))%Z then
    Some (Summarized "documentation" (path component)
            (summarize (summarizer this) (content component) budget))
  else None.

(** Compress a single component to fit in remaining budget. *)
Definition compressComponent (component : Component) (budget : Z) (h : Store)
  : option Packed * Store :=
  if String.eqb (type component) "code" then
    (compressCodeComponent component budget, h)
  else if String.eqb (type component) "dependencies" then
    compressDependenciesComponent component budget h
  else if String.eqb (type component) "documentation" then
    (compressDocumentationComponent component budget, h)
  else (None, h).

(** The token cost of a component, [count(JSON.stringify(component))]. *)
Definition componentTokens (h : Store) (component : Component) : Z :=
  Z.of_nat (count (tokenCounter this) (stringify_component this h component)).

(** One round of the loop of [fitComponentsInBudget]. *)
Definition fitComponent (budget : Z) (st : Fitting) (component : Component) : Fitting :=
  if stopped st then st
  else if (usedTokens st + componentTokens (store st) component <=? budget)%Z then
    {| result := result st ++ [Verbatim component];
       usedTokens := usedTokens st + componentTokens (store st) component;
       store := store st;
       stopped := false |}
  else
    match compressComponent component (budget - usedTokens st) (store st) with
    | (Some compressedComponent, h') =>
        {| result := result st ++ [compressedComponent];
           usedTokens := usedTokens st;
           store := h';
           stopped := true |}
    | (None, h') =>
        {| result := result st; usedTokens := usedTokens st; store := h'; stopped := false |}
    end.

Definition startFitting (h : Store) : Fitting :=
  {| result := []; usedTokens := 0; store := h; stopped := false |}.

(** Fit as many prioritized components as possible within token budget. *)
Definition fitComponentsInBudget (components : list Component) (budget : Z) (h : Store)
  : list Packed * Store :=
  let st := fold_left (fitComponent budget) components (startFitting h) in
  (result st, store st).

(** Compresses context to fit within token limits. *)
Definition compress (context : Context) (maxTokens : Z) (h : Store)
  : CompressedContext * Store :=
  let essentialMetadata := extractEssentialMetadata context in
  let essentialTokens :=
    Z.of_nat (count (tokenCounter this) (stringify_metadata this essentialMetadata)) in
  let remainingTokens := (maxTokens - essentialTokens)%Z in
  let prioritizedComponents := prioritize (prioritizer this) context in
  let (packed, h') := fitComponentsInBudget prioritizedComponents remainingTokens h in
  ({| essential := essentialMetadata; components := packed |}, h').
End Methods.

(** The total token cost of a list of components. *)
Definition tokensOf (this : Compressor) (h : Store) (components : list Component) : Z :=
  foldr (λ component total, (componentTokens this h component + total)%Z) 0%Z components.

(** [a] may stand before [b]: its score is at least that of [b]. *)
Definition descending (a b : Dependency) : Prop :=
  (importanceScore b <= importanceScore a)%Q.

(** The loop state [st], reached with [used] tokens spent on the output
    [res], against the state [st'] of a fresh loop. *)
Definition shifted (res : list Packed) (used : Z) (st st' : Fitting) : Prop :=
  result st = res ++ result st' ∧ usedTokens st = (used + usedTokens st')%Z ∧
  store st = store st' ∧ stopped st = stopped st'.

(** The default of the parameter [maxTokens]. *)
Definition defaultMaxTokens : Z := 2000.

(** The remaining budget, [maxTokens - essentialTokens]. *)
Definition remainingTokens (this : Compressor) (context : Context) (maxTokens : Z) : Z :=
  (maxTokens
   - Z.of_nat (count (tokenCounter this)
                 (stringify_metadata this (extractEssentialMetadata context))))%Z.

(** ** Example collaborators: one token per character, the prioritizer
    keeps the order of the context, the summarizer keeps as many characters
    as the budget allows. *)
Definition fieldText (v : Value) : string := toString v.

Definition exampleCompressor : Compressor :=
  {| tokenCounter := {| count := String.length |};
     prioritizer := {| prioritize := rest |};
     summarizer := {| summarize := λ text budget, String.substring 0 (Z.to_nat budget) text |};
     stringify_metadata := λ m,
       String.concat ","
         [fieldText (e_userId m); fieldText (e_projectType m);
          fieldText (e_requestType m); fieldText (e_timestamp m)];
     stringify_component := λ h c,
       String.concat ","
         (type c :: path c :: content c :: (name <$> (h !!! dependencies c))) |}.

Definition codeComponent : Component :=
  {| type := "code"; path := "src/a.ts"; content := "let x = 1;"; dependencies := 1%positive |}.

Definition noteComponent : Component :=
  {| type := "note"; path := "notes.txt"; content := "remember"; dependencies := 1%positive |}.

Definition depsComponent : Component :=
  {| type := "dependencies"; path := EmptyString; content := EmptyString;
     dependencies := 2%positive |}.

Definition tagComponent : Component :=
  {| type := "tag"; path := "v1"; content := "ok"; dependencies := 1%positive |}.

Definition exampleStore : Store :=
  <[2%positive := [ {| name := "lodash"; importanceScore := 1 # 5 |};
                    {| name := "react"; importanceScore := 9 # 10 |};
                    {| name := "express"; importanceScore := 1 # 2 |} ]]> ∅.

Definition exampleContext (components : list Component) : Context :=
  {| userId := Str "user-1"; projectType := Str "web"; requestType := Str "fix";
     timestamp := Num 1700000000; rest := components |}.

(** ** Greedy packing, as the specification describes it

    The components are taken in order against the unused budget. A component
    that fits the unused budget is included as it is, and its cost is taken
    off the unused budget. A component that does not fit is handed to its
    compression together with the unused budget: when the compression
    returns a result, that result is included and the packing ends, whatever
    comes later; when it declines, the component is dropped and the packing
    goes on with the next component and the same unused budget. *)
Fixpoint greedyPacking (this : Compressor) (unused : Z) (h : Store)
    (components : list Component) : list Packed * Store :=
  match components with
  | [] => ([], h)
  | component :: later =>
      if (componentTokens this h component <=? unused)%Z then
        let (packed, h') :=
          greedyPacking this (unused - componentTokens this h component) h later in
        (Verbatim component :: packed, h')
      else
        match compressComponent this component unused h with
        | (Some compressed, h') => ([compressed], h')
        | (None, _) => greedyPacking this unused h later
        end
  end.

(** ** Views of the output, and the loop as a recursion *)

(** The components of the output that were included as they are. *)
Definition verbatims (packed : list Packed) : list Component :=
  omap (λ p, match p with Verbatim c => Some c | _ => None end) packed.

(** An entry of the output that is not an input component. *)
Definition isCompressed (p : Packed) : Prop := ∀ c, p ≠ Verbatim c.

(** The loop of [fitComponentsInBudget], entered with [used] tokens spent,
    written as a recursion on the components that are still to come. *)
Fixpoint packFrom (this : Compressor) (budget used : Z) (h : Store)
    (components : list Component) : list Packed * Store :=
  match components with
  | [] => ([], h)
  | c :: rest =>
      if (used + componentTokens this h c <=? budget)%Z then
        let (packed, h') :=
          packFrom this budget (used + componentTokens this h c) h rest in
        (Verbatim c :: packed, h')
      else
        match compressComponent this c (budget - used) h with
        | (Some compressed, h') => ([compressed], h')
        | (None, _) => packFrom this budget used h rest
        end
  end.

End ContextCompressor.

(* ===================================================================== *)
(** * Facts about the JavaScript containers *)
(* ===================================================================== *)

Module JsFacts.
Import Js.

Section JsMapFacts.
Context {V : Type}.
Implicit Types (m : list (string * V)) (k : string) (v : V).

Lemma map_get_set k k' v m :
  map_get k (map_set k' v m) = if decide (k' = k) then Some v else map_get k m.
Proof.
  induction m as [|[k0 v0] m IH]; simpl; [done|].
  destruct (decide (k0 = k')) as [->|Hne]; simpl.
  - by destruct (decide (k' = k)).
  - rewrite IH. destruct (decide (k0 = k)) as [->|]; [|done].
    by rewrite decide_False by congruence.
Qed.

Lemma map_get_is_Some k m : is_Some (map_get k m) ↔ k ∈ map_keys m.
Proof.
  unfold map_keys. induction m as [|[k0 v0] m IH]; simpl.
  - split; [intros [? ?]; done | by intros ?%elem_of_nil].
  - case_decide; subst.
    + split; [intros _; left | eauto].
    + rewrite IH, elem_of_cons. split; [by right | by intros [?|?]].
Qed.

Lemma map_has_true k m : map_has k m = true ↔ k ∈ map_keys m.
Proof.
  rewrite <- map_get_is_Some. unfold map_has.
  destruct (map_get k m) eqn:E.
  - split; [eauto | done].
  - split; [done | intros [? ?]; done].
Qed.

Lemma map_get_elem k v m : map_get k m = Some v → (k, v) ∈ m.
Proof.
  induction m as [|[k0 v0] m IH]; simpl; [done|].
  case_decide; subst.
  - intros [= ->]. left.
  - intros. right. auto.
Qed.

Lemma map_keys_set k v m :
  map_keys (map_set k v m) = if decide (k ∈ map_keys m) then map_keys m else map_keys m ++ [k].
Proof.
  unfold map_keys. induction m as [|[k0 v0] m IH]; csimpl; [done|].
  destruct (decide (k0 = k)) as [->|Hne]; csimpl.
  - rewrite decide_True; [done | left].
  - rewrite IH. destruct (decide (k ∈ m.*1)) as [Hin|Hin].
    + rewrite decide_True; [done | by right].
    + rewrite decide_False; [done|]. rewrite elem_of_cons. by intros [?|?].
Qed.

Lemma map_keys_set_NoDup k v m : NoDup (map_keys m) → NoDup (map_keys (map_set k v m)).
Proof.
  intros Hnd. rewrite map_keys_set. case_decide; [done|].
  apply NoDup_app. repeat split; [done| |apply NoDup_singleton].
  intros x Hx ->%list_elem_of_singleton. done.
Qed.

Lemma map_keys_update k (f : V → V) m : map_keys (map_update k f m) = map_keys m.
Proof.
  unfold map_keys. induction m as [|[k0 v0] m IH]; csimpl; [done|].
  case_decide; csimpl; [done | by rewrite IH].
Qed.

Lemma map_get_update k k' (f : V → V) m :
  map_get k (map_update k' f m) =
  if decide (k' = k) then f <$> map_get k m else map_get k m.
Proof.
  induction m as [|[k0 v0] m IH]; simpl; [by case_decide|].
  destruct (decide (k0 = k')) as [->|Hne]; simpl.
  - by destruct (decide (k' = k)).
  - rewrite IH. destruct (decide (k0 = k)) as [->|]; [|done].
    by rewrite decide_False by congruence.
Qed.

Lemma map_get_fmap_snd {W : Type} (g : V → W) k m :
  map_get k (prod_map id g <$> m) = g <$> map_get k m.
Proof.
  induction m as [|[k0 v0] m IH]; csimpl; [done|].
  case_decide; csimpl; [done | apply IH].
Qed.

Lemma map_set_fmap_snd {W : Type} (g : V → W) k v m :
  map_set k (g v) (prod_map id g <$> m) = prod_map id g <$> map_set k v m.
Proof.
  induction m as [|[k0 v0] m IH]; csimpl; [done|].
  case_decide; csimpl; [done | by rewrite IH].
Qed.

Lemma map_keys_fmap_snd {W : Type} (g : V → W) m :
  map_keys (prod_map id g <$> m) = map_keys m.
Proof.
  unfold map_keys. induction m as [|[k0 v0] m IH]; csimpl; [done | by rewrite IH].
Qed.

Lemma map_has_fmap_snd {W : Type} (g : V → W) k m :
  map_has k (prod_map id g <$> m) = map_has k m.
Proof. unfold map_has. rewrite map_get_fmap_snd. by destruct (map_get k m). Qed.
End JsMapFacts.

Lemma set_has_true x s : set_has x s = true ↔ x ∈ s.
Proof. unfold set_has. apply bool_decide_eq_true. Qed.

Lemma set_has_false x s : set_has x s = false ↔ x ∉ s.
Proof. unfold set_has. apply bool_decide_eq_false. Qed.

Lemma set_add_fresh x s : x ∉ s → set_add x s = s ++ [x].
Proof. intros H. unfold set_add. by rewrite (proj2 (set_has_false x s) H). Qed.

Lemma elem_of_set_add x y s : y ∈ set_add x s ↔ y = x ∨ y ∈ s.
Proof.
  unfold set_add. destruct (set_has x s) eqn:E.
  - apply set_has_true in E. split; [tauto | by intros [->|?]].
  - rewrite elem_of_app, list_elem_of_singleton. tauto.
Qed.

Lemma set_delete_fresh x s : x ∉ s → set_delete x s = s.
Proof.
  unfold set_delete. induction s as [|y s IH]; [done|].
  rewrite not_elem_of_cons. intros [Hne Hs].
  rewrite filter_cons_True by done. by rewrite IH.
Qed.

Lemma set_delete_add x s : x ∉ s → set_delete x (set_add x s) = s.
Proof.
  intros H. rewrite set_add_fresh by done. unfold set_delete.
  rewrite filter_app. fold (set_delete x s). rewrite set_delete_fresh by done.
  rewrite filter_cons_False by (by intros ?). by rewrite filter_nil, app_nil_r.
Qed.

Lemma length_sort_insert {A : Type} (before : A → A → bool) x l :
  length (sort_insert before x l) = S (length l).
Proof.
  induction l as [|y l IH]; simpl; [done|].
  destruct (before y x); simpl; by rewrite ?IH.
Qed.

Lemma length_array_sort {A : Type} (before : A → A → bool) l :
  length (array_sort before l) = length l.
Proof.
  unfold array_sort. induction l as [|x l IH]; simpl; [done|].
  by rewrite length_sort_insert, IH.
Qed.

(** The number of entries that [slice(0, end)] returns. *)
Lemma length_slice0 {A : Type} (stop : Z) (l : list A) :
  Z.of_nat (length (slice0 stop l))
  = if decide (0 ≤ stop)%Z then Z.min stop (Z.of_nat (length l))
    else Z.max 0 (Z.of_nat (length l) + stop).
Proof.
  unfold slice0. case_decide; rewrite length_take; lia.
Qed.

End JsFacts.

(* ===================================================================== *)
(** * TaskDecomposer: the execution plan *)
(* ===================================================================== *)

Module TaskDecomposerFacts.
Import Js JsFacts TaskDecomposer.

Abbreviation idOf t := (taskId (metadata t)).

(** ** The task map *)

Lemma taskMapFrom_keys tasks m x :
  x ∈ map_keys (taskMapFrom m tasks) ↔ x ∈ map_keys m ∨ x ∈ taskIds tasks.
Proof.
  unfold taskMapFrom, taskIds. revert m.
  induction tasks as [|t tasks IH]; intros m; csimpl.
  - rewrite elem_of_nil. tauto.
  - rewrite IH, map_keys_set, elem_of_cons. case_decide.
    + split; [tauto|]. intros [?|[->|?]]; tauto.
    + rewrite elem_of_app, list_elem_of_singleton. tauto.
Qed.

Lemma taskMapFrom_keys_NoDup tasks m :
  NoDup (map_keys m) → NoDup (map_keys (taskMapFrom m tasks)).
Proof.
  unfold taskMapFrom. revert m. induction tasks as [|t tasks IH]; intros m Hm; csimpl.
  - done.
  - by apply IH, map_keys_set_NoDup.
Qed.

Lemma taskMapFrom_get tasks m x t :
  map_get x (taskMapFrom m tasks) = Some t →
  map_get x m = Some t ∨ (t ∈ tasks ∧ idOf t = x).
Proof.
  unfold taskMapFrom. revert m. induction tasks as [|t0 tasks IH]; intros m; csimpl.
  - by left.
  - intros [H|[H1 H2]]%IH.
    + rewrite map_get_set in H. case_decide as E.
      * injection H as ->. right. split; [left | done].
      * by left.
    + right. split; [by right | done].
Qed.

Lemma map_set_fresh {V : Type} k (v : V) m : k ∉ map_keys m → map_set k v m = m ++ [(k, v)].
Proof.
  unfold map_keys. induction m as [|[k0 v0] m IH]; csimpl; [done|].
  rewrite not_elem_of_cons. intros [Hne Hm].
  rewrite decide_False by done. by rewrite IH.
Qed.

Lemma taskMapFrom_NoDup tasks m :
  NoDup (map_keys m ++ taskIds tasks) →
  taskMapFrom m tasks = m ++ ((λ t, (idOf t, t)) <$> tasks).
Proof.
  unfold taskMapFrom, taskIds. revert m.
  induction tasks as [|t tasks IH]; intros m Hnd; csimpl.
  - by rewrite app_nil_r.
  - assert (idOf t ∉ map_keys m) as Hfresh.
    { apply NoDup_app in Hnd as (_ & Hd & _). intros Hin. apply (Hd _ Hin). left. }
    rewrite map_set_fresh by done. rewrite IH.
    + by rewrite <- app_assoc.
    + unfold map_keys in *. rewrite fmap_app. csimpl. by rewrite <- app_assoc.
Qed.

Lemma taskMap_keys tasks x : x ∈ map_keys (taskMap tasks) ↔ x ∈ taskIds tasks.
Proof.
  unfold taskMap. fold (taskMapFrom [] tasks). rewrite taskMapFrom_keys.
  unfold map_keys; csimpl. rewrite elem_of_nil. tauto.
Qed.

Lemma taskMap_keys_NoDup tasks : NoDup (map_keys (taskMap tasks)).
Proof. apply (taskMapFrom_keys_NoDup tasks []). constructor. Qed.

Lemma taskMap_get tasks x t :
  map_get x (taskMap tasks) = Some t → t ∈ tasks ∧ idOf t = x.
Proof. by intros [?|?]%(taskMapFrom_get tasks []). Qed.

Lemma taskMap_NoDup tasks :
  NoDup (taskIds tasks) → taskMap tasks = (λ t, (idOf t, t)) <$> tasks.
Proof. intros H. by apply (taskMapFrom_NoDup tasks []). Qed.

Lemma taskMap_has tasks x : map_has x (taskMap tasks) = true ↔ x ∈ taskIds tasks.
Proof. by rewrite map_has_true, taskMap_keys. Qed.

Lemma taskMap_keys_length tasks : (length (map_keys (taskMap tasks)) ≤ length tasks)%nat.
Proof.
  transitivity (length (taskIds tasks)).
  - apply submseteq_length, NoDup_submseteq; [apply taskMap_keys_NoDup|].
    intros x. apply taskMap_keys.
  - unfold taskIds. by rewrite length_fmap.
Qed.

(** Mapping the tasks by a function that keeps the task id. *)
Lemma taskMapFrom_fmap (f : OrchestrationMessage → OrchestrationMessage) tasks m :
  (∀ t, idOf (f t) = idOf t) →
  taskMapFrom (prod_map id f <$> m) (f <$> tasks) = prod_map id f <$> taskMapFrom m tasks.
Proof.
  intros Hf. unfold taskMapFrom. revert m.
  induction tasks as [|t tasks IH]; intros m; csimpl; [done|].
  by rewrite Hf, map_set_fmap_snd, IH.
Qed.

Lemma taskMap_fmap (f : OrchestrationMessage → OrchestrationMessage) tasks :
  (∀ t, idOf (f t) = idOf t) →
  taskMap (f <$> tasks) = prod_map id f <$> taskMap tasks.
Proof. intros Hf. by apply (taskMapFrom_fmap f tasks []). Qed.

(** ** The dependency graph *)

Abbreviation depsOf tasks x :=
  (default [] (map_get x (dependencyGraph (graphs tasks)))).

Lemma initGraphs_spec g tasks :
  let g' := fold_left
      (λ g task,
         {| dependencyGraph := map_set (idOf task) [] (dependencyGraph g);
            dependentsGraph := map_set (idOf task) [] (dependentsGraph g) |})
      tasks g in
  (∀ x, default [] (map_get x (dependencyGraph g)) = []) →
  (∀ x, default [] (map_get x (dependencyGraph g')) = []) ∧
  (∀ x, x ∈ map_keys (dependencyGraph g') ↔
        x ∈ map_keys (dependencyGraph g) ∨ x ∈ taskIds tasks).
Proof.
  revert g. induction tasks as [|t tasks IH]; intros g; csimpl; intros Hg.
  - split; [done|]. intros x. rewrite elem_of_nil. tauto.
  - destruct (IH {| dependencyGraph := map_set (idOf t) [] (dependencyGraph g);
                    dependentsGraph := map_set (idOf t) [] (dependentsGraph g) |})
      as (H1 & H2).
    { intros x. simpl. rewrite map_get_set. case_decide; [done | apply Hg]. }
    split; [done|]. intros x. rewrite H2. simpl.
    rewrite map_keys_set, elem_of_cons. case_decide.
    + split; [tauto|]. intros [?|[->|?]]; tauto.
    + rewrite elem_of_app, list_elem_of_singleton. tauto.
Qed.

Lemma initGraphs_empty tasks x :
  default [] (map_get x (dependencyGraph (initGraphs tasks))) = [].
Proof. by apply (initGraphs_spec {| dependencyGraph := []; dependentsGraph := [] |}). Qed.

Lemma initGraphs_keys tasks x :
  x ∈ map_keys (dependencyGraph (initGraphs tasks)) ↔ x ∈ taskIds tasks.
Proof.
  destruct (initGraphs_spec {| dependencyGraph := []; dependentsGraph := [] |} tasks)
    as (_ & H); [done|].
  unfold initGraphs. rewrite H. simpl. unfold map_keys; csimpl. rewrite elem_of_nil. tauto.
Qed.

Lemma addDependency_keys tasks tid g d :
  map_keys (dependencyGraph (addDependency tasks tid g d)) = map_keys (dependencyGraph g).
Proof.
  unfold addDependency. destruct (map_has d (taskMap tasks)); simpl; [|done].
  apply map_keys_update.
Qed.

Lemma addDependency_deps tasks tid g d' x d :
  d ∈ default [] (map_get x (dependencyGraph (addDependency tasks tid g d'))) ↔
  d ∈ default [] (map_get x (dependencyGraph g)) ∨
  (x = tid ∧ x ∈ map_keys (dependencyGraph g) ∧ d = d' ∧ d ∈ taskIds tasks).
Proof.
  unfold addDependency. destruct (map_has d' (taskMap tasks)) eqn:Hhas; simpl.
  - apply taskMap_has in Hhas. rewrite map_get_update.
    destruct (decide (tid = x)) as [->|Hne].
    + destruct (map_get x (dependencyGraph g)) as [s|] eqn:Hget; simpl.
      * rewrite elem_of_set_add.
        assert (x ∈ map_keys (dependencyGraph g)) by (apply map_get_is_Some; eauto).
        split; [intros [->|?]; tauto | intros [?|(_&_&->&_)]; tauto].
      * assert (x ∉ map_keys (dependencyGraph g)).
        { rewrite <- map_get_is_Some, Hget. by intros [? ?]. }
        rewrite elem_of_nil. tauto.
    + split; [tauto | intros [?|(->&_)]; [done | congruence]].
  - split; [tauto|]. intros [?|(_&_&->&Hin)]; [done|].
    apply taskMap_has in Hin. congruence.
Qed.

Lemma populate_keys tasks g t :
  map_keys (dependencyGraph (populate tasks g t)) = map_keys (dependencyGraph g).
Proof.
  unfold populate. generalize (default [] (dependencies (metadata t))) as ds.
  intros ds. revert g. induction ds as [|d ds IH]; intros g; simpl; [done|].
  by rewrite IH, addDependency_keys.
Qed.

Lemma populate_deps tasks g t x d :
  d ∈ default [] (map_get x (dependencyGraph (populate tasks g t))) ↔
  d ∈ default [] (map_get x (dependencyGraph g)) ∨
  (x = idOf t ∧ x ∈ map_keys (dependencyGraph g) ∧
   d ∈ default [] (dependencies (metadata t)) ∧ d ∈ taskIds tasks).
Proof.
  unfold populate. generalize (default [] (dependencies (metadata t))) as ds.
  intros ds. revert g. induction ds as [|d' ds IH]; intros g; simpl.
  - rewrite elem_of_nil. tauto.
  - rewrite IH, addDependency_deps, addDependency_keys, elem_of_cons.
    split.
    + intros [[?|(?&?&->&?)]|(?&?&?&?)]; tauto.
    + intros [?|(?&?&[->|?]&?)]; tauto.
Qed.

Lemma graphs_deps_from tasks ts g x d :
  d ∈ default [] (map_get x (dependencyGraph (fold_left (populate tasks) ts g))) ↔
  d ∈ default [] (map_get x (dependencyGraph g)) ∨
  (x ∈ map_keys (dependencyGraph g) ∧
   ∃ t, t ∈ ts ∧ idOf t = x ∧ d ∈ default [] (dependencies (metadata t)) ∧
        d ∈ taskIds tasks).
Proof.
  revert g. induction ts as [|t ts IH]; intros g; simpl.
  - split; [tauto|]. intros [?|(_&t&Ht%elem_of_nil&_)]; done.
  - rewrite IH, populate_deps, populate_keys. split.
    + intros [[?|(->&?&?&?)]|(?&t'&?&?&?&?)].
      * tauto.
      * right. split; [done|]. exists t. split; [left | done].
      * right. split; [done|]. exists t'. split; [by right | done].
    + intros [?|(?&t'&[->|?]%elem_of_cons&?&?&?)].
      * tauto.
      * left. right. subst. tauto.
      * right. split; [done|]. by exists t'.
Qed.

(** The stored dependency sets are exactly the in-plan dependencies. *)
Lemma graphs_deps tasks x d : d ∈ depsOf tasks x ↔ inPlanDependency tasks x d.
Proof.
  unfold graphs. rewrite graphs_deps_from, initGraphs_empty, initGraphs_keys, elem_of_nil.
  unfold inPlanDependency. split.
  - intros [[]|(_&t&?&?&?&?)]. by exists t.
  - intros (t&Ht&<-&?&?). right. split.
    + unfold taskIds. apply list_elem_of_fmap. by exists t.
    + by exists t.
Qed.

Lemma depsOf_key tasks x d :
  d ∈ depsOf tasks x → d ∈ map_keys (taskMap tasks) ∧ x ∈ map_keys (taskMap tasks).
Proof.
  rewrite graphs_deps, !taskMap_keys. intros (t&Ht&<-&_&?). split; [done|].
  unfold taskIds. apply list_elem_of_fmap. by exists t.
Qed.

(** ** The depth-first traversal *)

Section Traversal.
Variable tasks : list OrchestrationMessage.

Let K := map_keys (taskMap tasks).
Let dep := inPlanDependency tasks.

#[local] Abbreviation topo := (TaskDecomposer.topo tasks).
#[local] Abbreviation stack := (TaskDecomposer.stack tasks).
#[local] Abbreviation Inv := (TaskDecomposer.Inv tasks).
#[local] Abbreviation Ext := (TaskDecomposer.Ext tasks).
#[local] Abbreviation good := (TaskDecomposer.good tasks).

Lemma topo_closed l x d : topo l → x ∈ l → dep x d → d ∈ l.
Proof.
  induction 1 as [|l y Hl IH Hy]; [by intros ?%elem_of_nil|].
  rewrite !elem_of_app, !list_elem_of_singleton. intros [Hx| ->] Hd.
  - left. by apply IH.
  - left. by apply Hy.
Qed.

Lemma topo_closed_tc l x d : topo l → x ∈ l → tc dep x d → d ∈ l.
Proof.
  intros Hl Hx Htc. induction Htc as [x d H|x y d H Htc IH].
  - by apply (topo_closed l x).
  - apply IH. by apply (topo_closed l x).
Qed.

Lemma topo_acyclic l x : topo l → NoDup l → x ∈ l → ¬ tc dep x x.
Proof.
  induction 1 as [|l y Hl IH Hy]; [by intros _ ?%elem_of_nil|].
  rewrite NoDup_app. intros (Hnd & Hdisj & _).
  assert (y ∉ l) as Hyl.
  { intros Hin. apply (Hdisj _ Hin). by apply list_elem_of_singleton. }
  rewrite elem_of_app, list_elem_of_singleton. intros [Hx| ->]; [by apply IH|].
  intros Htc. apply Hyl. inversion Htc as [? ? H|? z ? H Hzy]; subst.
  - by apply Hy.
  - apply (topo_closed_tc l z); [done | by apply Hy | done].
Qed.

Lemma stack_reaches T x c : stack T x → c ∈ T → tc dep c x.
Proof.
  induction 1 as [|T y x HT IH Hyx]; [by intros ?%elem_of_nil|].
  rewrite elem_of_app, list_elem_of_singleton. intros [Hc| ->].
  - eapply tc_r; [by apply IH | done].
  - by apply tc_once.
Qed.

Lemma Ext_refl T st : Inv st → Ext T st st.
Proof.
  intros H. split; [done|]. split; [done|]. exists [].
  split; [by rewrite app_nil_r | by intros ? ?%elem_of_nil].
Qed.

Lemma Ext_trans T st1 st2 st3 : Ext T st1 st2 → Ext T st2 st3 → Ext T st1 st3.
Proof.
  intros (Ht1 & _ & n1 & Hv1 & Hn1) (Ht2 & Hi & n2 & Hv2 & Hn2).
  split; [congruence|]. split; [done|]. exists (n1 ++ n2). split.
  - by rewrite Hv2, Hv1, app_assoc.
  - intros z [?|?]%elem_of_app; auto.
Qed.

Lemma Ext_visited T st st' x : Ext T st st' → x ∈ visited st → x ∈ visited st'.
Proof. intros (_ & _ & n & -> & _) ?. apply elem_of_app. by left. Qed.

Lemma for_each_good body T xs :
  (∀ x st, x ∈ xs → Inv st → temp st = T → good T st [x] (body x st)) →
  ∀ st, Inv st → temp st = T → good T st xs (for_each body xs st).
Proof.
  induction xs as [|x xs IH]; intros Hbody st Hinv Htemp; simpl.
  - split; [by apply Ext_refl | by intros ? ?%elem_of_nil].
  - pose proof (Hbody x st (list_elem_of_here _ _) Hinv Htemp) as Hx.
    destruct (body x st) as [st1| |]; simpl in Hx; [|done..].
    destruct Hx as [Hext Hx]. pose proof Hext as (Ht1 & Hinv1 & _).
    assert (good T st1 xs (for_each body xs st1)) as Hrest.
    { apply IH; [|done|congruence]. intros y st' Hy. apply Hbody. by right. }
    destruct (for_each body xs st1) as [st2| |]; simpl in *; [|done..].
    destruct Hrest as [Hext2 Hxs]. split; [by eapply Ext_trans|].
    intros y [->|Hy]%elem_of_cons; [|by apply Hxs].
    eapply Ext_visited; [done|]. apply Hx. left.
Qed.

Lemma visit_good fuel x st :
  x ∈ K → Inv st → NoDup (temp st) → (∀ z, z ∈ temp st → z ∈ K) →
  stack (temp st) x →
  (length K < fuel + length (temp st))%nat →
  good (temp st) st [x] (visit tasks fuel x st).
Proof.
  revert x st. induction fuel as [|fuel IH]; intros x st Hx Hinv Hnd Hsub Hstack Hfuel.
  - exfalso. simpl in Hfuel.
    assert (length (temp st) ≤ length K)%nat; [|lia].
    by apply submseteq_length, NoDup_submseteq.
  - simpl. destruct (set_has x (temp st)) eqn:Htemp.
    { apply set_has_true in Htemp. exists x. split; [done|].
      by apply (stack_reaches (temp st)). }
    apply set_has_false in Htemp.
    destruct (set_has x (visited st)) eqn:Hvis.
    { apply set_has_true in Hvis. split; [by apply Ext_refl|].
      by intros ? ->%list_elem_of_singleton. }
    apply set_has_false in Hvis.
    rewrite set_add_fresh by done.
    set (st1 := {| executionOrder := executionOrder st; visited := visited st;
                   temp := temp st ++ [x] |}).
    assert (Inv st1) as Hinv1 by done.
    pose proof (for_each_good (visit tasks fuel) (temp st ++ [x]) (depsOf tasks x)) as Hloop.
    specialize (Hloop) with (st := st1). 
    assert (good (temp st ++ [x]) st1 (depsOf tasks x)
              (for_each (visit tasks fuel) (depsOf tasks x) st1)) as Hdeps.
    { apply Hloop; [|done|done]. intros d st' Hd Hinv' Htemp'.
      rewrite <- Htemp'. apply IH; rewrite ?Htemp'.
      - by apply depsOf_key in Hd as [? _].
      - done.
      - apply NoDup_app. split; [done|]. split; [|apply NoDup_singleton].
        by intros z Hz ->%list_elem_of_singleton.
      - intros z [?| ->%list_elem_of_singleton]%elem_of_app; auto.
      - apply stack_snoc; [done|]. by apply graphs_deps.
      - rewrite length_app. simpl. lia. }
    destruct (for_each (visit tasks fuel) (depsOf tasks x) st1) as [st2| |];
      simpl in Hdeps; [|done..].
    destruct Hdeps as [(Ht2 & Hinv2 & new & Hv2 & Hnew) Hall]. simpl in Ht2, Hv2.
    destruct Hinv2 as (Hnd2 & Htopo2 & Hkeys2 & Heo2).
    assert (x ∉ visited st2) as Hx2.
    { rewrite Hv2, elem_of_app. intros [?|Hin]; [done|].
      apply (Hnew _ Hin). apply elem_of_app. right. by apply list_elem_of_singleton. }
    simpl. rewrite Ht2, <- (set_add_fresh x (temp st)) by done.
    rewrite set_delete_add by done. rewrite (set_add_fresh x (visited st2)) by done.
    split; [split; [done|split]|].
    + repeat split; simpl.
      * apply NoDup_app. split; [done|]. split; [|apply NoDup_singleton].
        by intros z Hz ->%list_elem_of_singleton.
      * apply topo_snoc; [done|]. intros d Hd. apply Hall. by apply graphs_deps.
      * intros z [?| ->%list_elem_of_singleton]%elem_of_app; auto.
      * rewrite omap_app, Heo2. simpl.
        destruct (map_get x (taskMap tasks)); [done | by rewrite app_nil_r].
    + exists (new ++ [x]). simpl. split; [by rewrite Hv2, app_assoc|].
      intros z [Hz| ->%list_elem_of_singleton]%elem_of_app; [|done].
      intros Hin. apply (Hnew _ Hz). apply elem_of_app. by left.
    + intros ? ->%list_elem_of_singleton. simpl. apply elem_of_app. right.
      by apply list_elem_of_singleton.
Qed.

(** The main loop: every task is visited, in a post-order that respects
    the in-plan dependencies; or a cycle is reported; the recursion budget
    is never exhausted. *)
Lemma visitAll_good :
  match visitAll tasks (S (length tasks)) with
  | Done st => Inv st ∧ ∀ x, x ∈ K → x ∈ visited st
  | Thrown e => ∃ c, e = CycleError c ∧ tc dep c c
  | OutOfFuel => False
  end.
Proof.
  unfold visitAll.
  set (body := λ tid st, if set_has tid (visited st) then Done st
                         else visit tasks (S (length tasks)) tid st).
  set (st0 := {| executionOrder := []; visited := []; temp := [] |}).
  assert (Inv st0) as Hinv0.
  { repeat split; simpl; [constructor | constructor | by intros ? ?%elem_of_nil]. }
  pose proof (for_each_good body [] K) as Hloop.
  assert (good [] st0 K (for_each body K st0)) as Hgood.
  { apply Hloop; [|done|done]. intros x st Hx Hinv Htemp. unfold body.
    destruct (set_has x (visited st)) eqn:Hvis.
    - apply set_has_true in Hvis. split; [by apply Ext_refl|].
      by intros ? ->%list_elem_of_singleton.
    - pose proof (visit_good (S (length tasks)) x st) as Hv.
      rewrite Htemp in Hv. apply Hv; try done.
      + constructor.
      + by intros ? ?%elem_of_nil.
      + constructor.
      + pose proof (taskMap_keys_length tasks) as Hlen. simpl. fold K in Hlen. lia. }
  fold K. destruct (for_each body K st0) as [st| |]; simpl in Hgood; [|done..].
  by destruct Hgood as [(_ & Hinv & _) Hall].
Qed.
End Traversal.

(** ** Dangling dependency entries *)

Lemma initGraphs_fmap (f : OrchestrationMessage → OrchestrationMessage) tasks :
  (∀ t, idOf (f t) = idOf t) → initGraphs (f <$> tasks) = initGraphs tasks.
Proof.
  intros Hf. unfold initGraphs.
  generalize {| dependencyGraph := []; dependentsGraph := [] |} as g.
  induction tasks as [|t ts IH]; intros g; csimpl; [done|]. rewrite Hf. apply IH.
Qed.

Section Dangling.
Variable tasks : list OrchestrationMessage.

Let ids := taskIds tasks.
Let f := withoutDangling ids.
Let tasks' := f <$> tasks.

#[local] Abbreviation stmap := (TaskDecomposer.stmap tasks).

Lemma withoutDangling_id t : idOf (f t) = idOf t.
Proof. done. Qed.

Lemma taskMap_withoutDangling : taskMap tasks' = prod_map id f <$> taskMap tasks.
Proof. apply taskMap_fmap, withoutDangling_id. Qed.

Lemma initGraphs_withoutDangling : initGraphs tasks' = initGraphs tasks.
Proof. apply initGraphs_fmap, withoutDangling_id. Qed.

Lemma addDependency_withoutDangling tid g d :
  addDependency tasks' tid g d = addDependency tasks tid g d.
Proof.
  unfold addDependency. by rewrite taskMap_withoutDangling, map_has_fmap_snd.
Qed.

Lemma addDependency_dangling tid g d : d ∉ ids → addDependency tasks tid g d = g.
Proof.
  intros Hd. unfold addDependency.
  destruct (map_has d (taskMap tasks)) eqn:E; [|done].
  by apply taskMap_has in E.
Qed.

Lemma populate_withoutDangling g t : populate tasks' g (f t) = populate tasks g t.
Proof.
  unfold populate. simpl.
  replace (default [] (filter (λ d, d ∈ ids) <$> dependencies (metadata t)))
    with (filter (λ d, d ∈ ids) (default [] (dependencies (metadata t))))
    by (by destruct (dependencies (metadata t))).
  generalize (default [] (dependencies (metadata t))) as ds. intros ds. revert g.
  induction ds as [|d ds IH]; intros g; [done|].
  destruct (decide (d ∈ ids)) as [Hd|Hd].
  - rewrite filter_cons_True by done. simpl.
    by rewrite IH, addDependency_withoutDangling.
  - rewrite filter_cons_False by done. simpl.
    by rewrite IH, addDependency_dangling.
Qed.

Lemma graphs_withoutDangling : graphs tasks' = graphs tasks.
Proof.
  assert (∀ ts g, fold_left (populate tasks') (f <$> ts) g
                  = fold_left (populate tasks) ts g) as Hfold.
  { induction ts as [|t ts IH]; intros g; csimpl; [done|].
    by rewrite populate_withoutDangling, IH. }
  unfold graphs at 1. rewrite initGraphs_withoutDangling. apply Hfold.
Qed.

Lemma for_each_withoutDangling body body' xs st :
  (∀ x st, body' x (stmap st) = outcome_map stmap (body x st)) →
  for_each body' xs (stmap st) = outcome_map stmap (for_each body xs st).
Proof.
  intros Hb. revert st. induction xs as [|x xs IH]; intros st; simpl; [done|].
  rewrite Hb. destruct (body x st); simpl; [apply IH | done | done].
Qed.

Lemma visit_withoutDangling fuel x st :
  visit tasks' fuel x (stmap st) = outcome_map stmap (visit tasks fuel x st).
Proof.
  revert x st. induction fuel as [|fuel IH]; intros x st; [done|].
  simpl. destruct (set_has x (temp st)); [done|].
  destruct (set_has x (visited st)); [done|].
  rewrite graphs_withoutDangling.
  change {| executionOrder := withoutDangling (taskIds tasks) <$> executionOrder st;
            visited := visited st; temp := set_add x (temp st) |}
    with (stmap {| executionOrder := executionOrder st; visited := visited st;
                   temp := set_add x (temp st) |}).
  rewrite (for_each_withoutDangling (visit tasks fuel)) by apply IH.
  destruct (for_each (visit tasks fuel) _ _) as [st2| |]; simpl; [|done..].
  rewrite taskMap_withoutDangling, map_get_fmap_snd. unfold stmap. simpl.
  destruct (map_get x (taskMap tasks)); simpl; [|done].
  by rewrite fmap_app.
Qed.

Lemma buildExecutionPlan_withoutDangling :
  buildExecutionPlan tasks' = outcome_map (fmap f) (buildExecutionPlan tasks).
Proof.
  unfold buildExecutionPlan, visitAll.
  rewrite taskMap_withoutDangling, map_keys_fmap_snd.
  replace (length tasks') with (length tasks) by (unfold tasks'; by rewrite length_fmap).
  change {| executionOrder := []; visited := []; temp := [] |}
    with (stmap {| executionOrder := []; visited := []; temp := [] |}) at 1.
  rewrite (for_each_withoutDangling
             (λ tid st, if set_has tid (visited st) then Done st
                        else visit tasks (S (length tasks)) tid st)).
  - destruct (for_each _ _ _); simpl; [|done..]. by rewrite fmap_reverse.
  - intros x st. cbv beta. change (visited (stmap st)) with (visited st).
    destruct (set_has x (visited st)); [done|].
    apply visit_withoutDangling.
Qed.
End Dangling.

(** ** The plan as a rearrangement of the input *)

Lemma map_get_pairs tasks t :
  NoDup (taskIds tasks) → t ∈ tasks →
  map_get (idOf t) ((λ t, (idOf t, t)) <$> tasks) = Some t.
Proof.
  unfold taskIds. induction tasks as [|t0 tasks IH]; csimpl; [by intros _ ?%elem_of_nil|].
  rewrite NoDup_cons. intros [Hfresh Hnd] [->|Hin]%elem_of_cons.
  - by rewrite decide_True.
  - rewrite decide_False; [by apply IH|].
    intros Heq. apply Hfresh. rewrite Heq. apply list_elem_of_fmap. by exists t.
Qed.

Lemma omap_taskMap tasks :
  NoDup (taskIds tasks) →
  omap (λ k, map_get k (taskMap tasks)) (map_keys (taskMap tasks)) = tasks.
Proof.
  intros Hnd. rewrite taskMap_NoDup by done.
  pose proof (map_get_pairs tasks) as Hget.
  generalize ((λ t, (idOf t, t)) <$> tasks) at 1 as m, Hget. unfold map_keys.
  intros m Hm.
  assert (∀ l, (∀ t, t ∈ l → t ∈ tasks) →
               omap (λ k, map_get k m) (((λ t, (idOf t, t)) <$> l).*1) = l) as Hl.
  { induction l as [|t l IH]; intros Hsub; csimpl; [done|].
    rewrite Hm; [|done|apply Hsub; left]. simpl. f_equal. apply IH.
    intros t' Ht'. apply Hsub. by right. }
  by apply Hl.
Qed.

Lemma visitAll_Permutation tasks st :
  NoDup (taskIds tasks) →
  visitAll tasks (S (length tasks)) = Done st →
  executionOrder st ≡ₚ tasks.
Proof.
  intros Hnd Hdone. pose proof (visitAll_good tasks) as Hgood.
  rewrite Hdone in Hgood. destruct Hgood as [(Hnd' & _ & Hkeys & Heo) Hall].
  rewrite Heo.
  transitivity (omap (λ k, map_get k (taskMap tasks)) (map_keys (taskMap tasks)));
    [|by rewrite omap_taskMap].
  apply omap_Permutation. apply NoDup_Permutation; [done | apply taskMap_keys_NoDup |].
  intros x. split; [apply Hkeys | apply Hall].
Qed.

(** ** The order of the returned plan *)

Lemma topo_split tasks l x :
  topo tasks l → x ∈ l →
  ∃ l1 l2, l = l1 ++ x :: l2 ∧ ∀ d, inPlanDependency tasks x d → d ∈ l1.
Proof.
  induction 1 as [|l y Hl IH Hy]; [by intros ?%elem_of_nil|].
  rewrite elem_of_app, list_elem_of_singleton. intros [Hx| ->].
  - destruct (IH Hx) as (l1 & l2 & -> & Hd). exists l1, (l2 ++ [y]).
    split; [by rewrite <- app_assoc | done].
  - by exists l, [].
Qed.

(** X25. In every plan that [buildExecutionPlan] returns, a task comes
    strictly before each task of the plan that it depends on: the returned
    order is the reverse of a dependency-first order. *)
Lemma buildExecutionPlan_dependent_first tasks plan x d :
  buildExecutionPlan tasks = Done plan →
  inPlanDependency tasks x d → before plan x d.
Proof.
  unfold buildExecutionPlan. intros Hplan Hdep.
  pose proof (visitAll_good tasks) as Hgood.
  destruct (visitAll tasks (S (length tasks))) as [st| |]; simpl in Hplan; [|done..].
  injection Hplan as <-. destruct Hgood as [(_ & Htopo & _ & Heo) Hall].
  pose proof Hdep as [Hd Hx]%graphs_deps%depsOf_key.
  apply map_get_is_Some in Hx as [tx Hx]. apply map_get_is_Some in Hd as [td Hd].
  destruct (topo_split tasks (visited st) x Htopo) as (l1 & l2 & Hv & Hdeps).
  { apply Hall, map_get_is_Some. eauto. }
  apply Hdeps, list_elem_of_split in Hdep as (l3 & l4 & ->).
  rewrite Heo, Hv. set (get := λ k, map_get k (taskMap tasks)).
  assert (omap get ((l3 ++ d :: l4) ++ x :: l2)
          = omap get l3 ++ td :: omap get l4 ++ tx :: omap get l2) as ->.
  { rewrite <- app_assoc. rewrite omap_app. csimpl. unfold get at 2. rewrite Hd. csimpl.
    rewrite omap_app. csimpl. unfold get at 3. by rewrite Hx. }
  rewrite reverse_app, reverse_cons, reverse_app, reverse_cons.
  rewrite <- !app_assoc. simpl.
  eexists _, tx, _, td, _. split; [reflexivity|].
  apply taskMap_get in Hx as [_ Hx]. apply taskMap_get in Hd as [_ Hd]. done.
Qed.

(** ** Properties of the execution plan *)

(** C1 (code check at a concrete plan). Task 2 depends on task 1 and the
    plan has no cycle, yet [buildExecutionPlan] returns task 2 first: the
    final [reverse] turns the dependency-first post-order around, so the
    dependent task comes strictly before the task it depends on. *)
Theorem buildExecutionPlan_twoTasks :
  inPlanDependency twoTasks "task-2" "task-1" ∧
  ¬ cyclic twoTasks ∧
  buildExecutionPlan twoTasks = Done [mkTask "task-2" ["task-1"]; mkTask "task-1" []] ∧
  before [mkTask "task-2" ["task-1"]; mkTask "task-1" []] "task-2" "task-1".
Proof.
  assert (buildExecutionPlan twoTasks
          = Done [mkTask "task-2" ["task-1"]; mkTask "task-1" []]) as Hrun
    by (vm_compute; reflexivity).
  split; [|split; [|split; [exact Hrun|]]].
  - exists (mkTask "task-2" ["task-1"]). unfold twoTasks.
    repeat split; simpl; repeat constructor.
  - intros [x Hx]. pose proof (visitAll_good twoTasks) as Hgood.
    unfold buildExecutionPlan in Hrun.
    destruct (visitAll twoTasks (S (length twoTasks))) as [st| |]; [|done..].
    destruct Hgood as [(Hnd & Htopo & _) Hall].
    apply (topo_acyclic twoTasks (visited st) x); try done.
    apply Hall. inversion Hx as [? ? H|? ? ? H _]; subst;
      by apply graphs_deps, depsOf_key in H as [_ ?].
  - by exists [], (mkTask "task-2" ["task-1"]), [], (mkTask "task-1" []), [].
Qed.

(** C4. When the in-plan dependency relation has a cycle,
    [buildExecutionPlan] throws the cycle error; the task id in its message
    lies on a cycle; no execution order is returned. *)
Theorem buildExecutionPlan_cycle tasks :
  cyclic tasks →
  ∃ c, buildExecutionPlan tasks = Thrown (CycleError c) ∧
       tc (inPlanDependency tasks) c c.
Proof.
  intros [x Hx]. unfold buildExecutionPlan.
  pose proof (visitAll_good tasks) as Hgood.
  destruct (visitAll tasks (S (length tasks))) as [st|e|]; simpl; [| |done].
  2: { destruct Hgood as (c & -> & Hc). by exists c. }
  exfalso. destruct Hgood as [(Hnd & Htopo & _) Hall].
  apply (topo_acyclic tasks (visited st) x); try done.
  apply Hall. inversion Hx as [? ? H|? ? ? H _]; subst;
    by apply graphs_deps, depsOf_key in H as [_ ?].
Qed.

Lemma mutualTasks_cyclic : cyclic mutualTasks.
Proof.
  exists "a". apply tc_l with "b"; [|apply tc_once].
  - exists (mkTask "a" ["b"]). unfold mutualTasks. repeat split; simpl; repeat constructor.
  - exists (mkTask "b" ["a"]). unfold mutualTasks. repeat split; simpl; repeat constructor.
Qed.

Lemma buildExecutionPlan_cycle_witness :
  cyclic mutualTasks ∧
  ∃ c, buildExecutionPlan mutualTasks = Thrown (CycleError c) ∧
       tc (inPlanDependency mutualTasks) c c.
Proof.
  split; [exact mutualTasks_cyclic|].
  exact (buildExecutionPlan_cycle mutualTasks mutualTasks_cyclic).
Defined.

(** C5. Dangling dependency entries (ids of no task of the plan) have no
    effect: with unique task ids, the call on the plan behaves as the call on
    the plan with all dangling entries removed (same failure, or the same
    order); it fails only if the in-plan dependencies have a cycle; and a
    returned plan holds exactly the input tasks, each once. *)
Theorem buildExecutionPlan_dangling tasks :
  NoDup (taskIds tasks) →
  buildExecutionPlan (withoutDangling (taskIds tasks) <$> tasks)
    = outcome_map (fmap (withoutDangling (taskIds tasks))) (buildExecutionPlan tasks) ∧
  (¬ cyclic tasks → ∃ plan, buildExecutionPlan tasks = Done plan) ∧
  (∀ plan, buildExecutionPlan tasks = Done plan → plan ≡ₚ tasks).
Proof.
  intros Hnd. split; [apply buildExecutionPlan_withoutDangling|]. split.
  - intros Hacyc. unfold buildExecutionPlan.
    pose proof (visitAll_good tasks) as Hgood.
    destruct (visitAll tasks (S (length tasks))) as [st|e|]; simpl; [eauto| |done].
    destruct Hgood as (c & _ & Hc). destruct Hacyc. by exists c.
  - unfold buildExecutionPlan. intros plan Hplan.
    destruct (visitAll tasks (S (length tasks))) as [st|e|] eqn:Hrun;
      simpl in Hplan; [|done..].
    injection Hplan as <-. rewrite reverse_Permutation.
    by apply visitAll_Permutation.
Qed.

Lemma buildExecutionPlan_dangling_witness :
  NoDup (taskIds danglingTasks) ∧
  buildExecutionPlan (withoutDangling (taskIds danglingTasks) <$> danglingTasks)
    = outcome_map (fmap (withoutDangling (taskIds danglingTasks)))
        (buildExecutionPlan danglingTasks) ∧
  (¬ cyclic danglingTasks → ∃ plan, buildExecutionPlan danglingTasks = Done plan) ∧
  (∀ plan, buildExecutionPlan danglingTasks = Done plan → plan ≡ₚ danglingTasks).
Proof.
  assert (NoDup (taskIds danglingTasks)) as Hnd by (vm_compute; apply NoDup_ListNoDup; repeat constructor; simpl; intuition discriminate).
  split; [exact Hnd|]. exact (buildExecutionPlan_dangling danglingTasks Hnd).
Defined.

(** ** Normalization of candidate tasks *)

(** C3 (as stated, refuted). A candidate whose metadata carries status
    [completed] and 3 retries keeps both through normalization: the result
    has neither status [pending] nor 0 retries. *)
Lemma validateAndEnrichTasks_not_reset :
  (λ r, (enriched_metadata r !! "status", enriched_metadata r !! "retries"))
    <$> validateAndEnrichTasks [finishedTask]
  = [(Some (Str "completed"), Some (Num 3))].
Proof. vm_compute. reflexivity. Qed.

(** C3 (amended). In the normalized record, status is [pending] and retries
    is 0 where the caller's metadata carries no such field; a status or
    retries value that the caller's metadata carries is kept. *)
Theorem validateAndEnrichTasks_status tasks i task :
  tasks !! i = Some task →
  ∃ r, validateAndEnrichTasks tasks !! i = Some r ∧
       enriched_metadata r !! "status"
         = Some (default (Str "pending") (any_metadata task ≫= (.!! "status"))) ∧
       enriched_metadata r !! "retries"
         = Some (default (Num 0) (any_metadata task ≫= (.!! "retries"))).
Proof.
  intros Hi. exists (validateAndEnrichTask i task). split.
  - unfold validateAndEnrichTasks. by rewrite list_lookup_imap, Hi.
  - unfold validateAndEnrichTask. simpl.
    split; rewrite lookup_union.
    + rewrite !lookup_insert_ne, lookup_insert_eq by done.
      destruct (any_metadata task) as [md|]; simpl; [by destruct (md !! "status")|].
      by rewrite lookup_empty.
    + rewrite !lookup_insert_ne, lookup_insert_eq by done.
      destruct (any_metadata task) as [md|]; simpl; [by destruct (md !! "retries")|].
      by rewrite lookup_empty.
Qed.

Lemma validateAndEnrichTasks_status_witness :
  [finishedTask; bareTask] !! 1%nat = Some bareTask ∧
  ∃ r, validateAndEnrichTasks [finishedTask; bareTask] !! 1%nat = Some r ∧
       enriched_metadata r !! "status"
         = Some (default (Str "pending") (any_metadata bareTask ≫= (.!! "status"))) ∧
       enriched_metadata r !! "retries"
         = Some (default (Num 0) (any_metadata bareTask ≫= (.!! "retries"))).
Proof.
  split; [reflexivity|].
  apply (validateAndEnrichTasks_status [finishedTask; bareTask] 1 bareTask). reflexivity.
Defined.

End TaskDecomposerFacts.

(* ===================================================================== *)
(** * KnowledgeGraphService: relevance queries *)
(* ===================================================================== *)

Module KnowledgeGraphFacts.
Import Js JsFacts KnowledgeGraph.

Section Query.
Context {NodeData EdgeData : Type}.
Variable JSON_stringify : NodeData → string.
Variable graph : Graph NodeData EdgeData.

Abbreviation idsOf l := (node_id <$> l).

Lemma addNodeToContext_consistent b sn :
  consistent b → consistent (addNodeToContext graph b sn).
Proof.
  intros [Hids Hrel]. split; simpl.
  - intros x. rewrite elem_of_set_add, fmap_app, elem_of_app, Hids. simpl.
    rewrite list_elem_of_singleton. tauto.
  - intros r. rewrite fmap_app, !elem_of_app. simpl. rewrite !list_elem_of_singleton.
    intros [Hr|Hr].
    + destruct (Hrel r Hr). tauto.
    + apply list_elem_of_fmap in Hr as (e & -> & He). simpl.
      apply list_elem_of_filter in He as [Hto He].
      apply list_elem_of_filter in He as [Hfrom _].
      apply set_has_true, elem_of_set_add in Hto. rewrite Hids in Hto.
      split; [right; done|]. destruct Hto as [->|?]; tauto.
Qed.

Lemma addNodeToContext_length b sn :
  length (b_entities (addNodeToContext graph b sn)) = S (length (b_entities b)).
Proof. simpl. rewrite length_app. simpl. lia. Qed.

Lemma building_fold l b :
  consistent b →
  let b' := fold_left (addNodeToContext graph) l b in
  consistent b' ∧ length (b_entities b') = (length (b_entities b) + length l)%nat.
Proof.
  revert b. induction l as [|sn l IH]; intros b Hb; simpl.
  - split; [done | lia].
  - destruct (IH (addNodeToContext graph b sn)) as [Hc Hlen].
    { by apply addNodeToContext_consistent. }
    split; [done|]. rewrite Hlen, addNodeToContext_length. lia.
Qed.

Lemma buildContextFromNodes_spec l :
  let ctx := buildContextFromNodes graph l in
  length (entities ctx) = length l ∧
  ∀ r, r ∈ relationships ctx →
       edge_from r ∈ idsOf (entities ctx) ∧ edge_to r ∈ idsOf (entities ctx).
Proof.
  unfold buildContextFromNodes. simpl.
  destruct (building_fold l {| b_entities := []; b_relationships := [];
                               includedNodeIds := [] |}) as [[_ Hrel] Hlen].
  - split; simpl; [intros x; by rewrite !elem_of_nil | by intros r ?%elem_of_nil].
  - split; [apply Hlen | apply Hrel].
Qed.

(** C6 (amended). For a message with content, the query returns a
    context, whatever [maxNodes] is. When [maxNodes] is not negative, the
    context has at most [maxNodes] entities. When [maxNodes] is negative,
    [slice] counts from the end of the ranking: the context has all relevant
    nodes but the last [- maxNodes], that is [max 0 (relevant + maxNodes)]
    entities. In both cases, both endpoints of every returned relationship
    are ids of returned entities. *)
Theorem getRelevantContext_bounded taskMessage text maxNodes :
  content taskMessage = Some text →
  ∃ ctx, getRelevantContext JSON_stringify graph taskMessage maxNodes = Return ctx ∧
         ((0 ≤ maxNodes)%Z → (Z.of_nat (length (entities ctx)) ≤ maxNodes)%Z) ∧
         ((maxNodes < 0)%Z →
          Z.of_nat (length (entities ctx))
          = Z.max 0 (Z.of_nat (length (findRelevantNodes JSON_stringify graph
                                         (extractKeywords (toLowerCase text))
                                         (taskTypeOf taskMessage)))
                     + maxNodes)) ∧
         ∀ r, r ∈ relationships ctx →
              edge_from r ∈ idsOf (entities ctx) ∧ edge_to r ∈ idsOf (entities ctx).
Proof.
  intros Hc. unfold getRelevantContext. rewrite Hc.
  eexists. split; [reflexivity|]. fold (taskTypeOf taskMessage).
  match goal with |- context [buildContextFromNodes graph ?l] =>
    destruct (buildContextFromNodes_spec l) as [Hlen Hrel]
  end.
  rewrite Hlen, length_slice0, length_array_sort.
  split; [|split; [|exact Hrel]]; intros Hn.
  - rewrite decide_True by done. lia.
  - by rewrite decide_False by lia.
Qed.

(** C9 (code check). A message without [content] makes the query throw
    a [TypeError]: no context, empty or not, is returned. *)
Theorem getRelevantContext_no_content md maxNodes :
  getRelevantContext JSON_stringify graph {| content := None; metadata := md |} maxNodes
  = Throw (TypeError "Cannot read properties of undefined (reading 'toLowerCase')").
Proof. reflexivity. Qed.
End Query.

Lemma getRelevantContext_bounded_witness :
  content parserQuery = Some "Refactor the parser" ∧
  (∃ ctx, getRelevantContext id threeFiles parserQuery 2 = Return ctx ∧
          ((0 ≤ 2)%Z → (Z.of_nat (length (entities ctx)) ≤ 2)%Z) ∧
          ((2 < 0)%Z →
           Z.of_nat (length (entities ctx))
           = Z.max 0 (Z.of_nat (length (findRelevantNodes id threeFiles
                                          (extractKeywords (toLowerCase "Refactor the parser"))
                                          (taskTypeOf parserQuery)))
                      + 2)) ∧
          ∀ r, r ∈ relationships ctx →
               edge_from r ∈ node_id <$> entities ctx ∧
               edge_to r ∈ node_id <$> entities ctx) ∧
  (∃ ctx, getRelevantContext id threeFiles parserQuery 2 = Return ctx ∧
          node_id <$> entities ctx = ["file:parser-core.ts"; "file:parser-util.ts"] ∧
          relationships ctx = [importEdge "parser-util.ts" "parser-core.ts"]).
Proof.
  split; [reflexivity|]. split.
  - apply (getRelevantContext_bounded id threeFiles parserQuery "Refactor the parser" 2).
    reflexivity.
  - eexists. split; [reflexivity|]. split; vm_compute; reflexivity.
Defined.

(** C6 (as stated, refuted). All three files are relevant to the query; with
    [maxNodes = -1] the query returns two entities, which is more than
    [maxNodes]: [slice(0, -1)] leaves out the last entry of the ranking. *)
Lemma getRelevantContext_negative_maximum :
  ∃ ctx, getRelevantContext id threeFiles parserQuery (-1) = Return ctx ∧
         node_id <$> entities ctx = ["file:parser-core.ts"; "file:parser-util.ts"] ∧
         (-1 < Z.of_nat (length (entities ctx)))%Z.
Proof.
  eexists. split; [reflexivity|]. split; [vm_compute; reflexivity|].
  vm_compute. reflexivity.
Qed.

(** C2 (code check at a concrete graph). Both files match the query and are
    selected, the graph has an [imports] edge from the first to the second,
    and the returned context has no relationship: when the first file is
    handled, the second is not yet among the included ids. *)
Theorem getRelevantContext_twoFiles :
  ∃ ctx, getRelevantContext id twoFiles parserQuery defaultMaxNodes = Return ctx ∧
         node_id <$> entities ctx = ["file:parser-core.ts"; "file:parser-util.ts"] ∧
         importEdge "parser-core.ts" "parser-util.ts" ∈ edges twoFiles ∧
         edge_from (importEdge "parser-core.ts" "parser-util.ts") ∈ node_id <$> entities ctx ∧
         edge_to (importEdge "parser-core.ts" "parser-util.ts") ∈ node_id <$> entities ctx ∧
         relationships ctx = [].
Proof.
  eexists. split; [reflexivity|].
  split; [vm_compute; reflexivity|].
  split; [left|].
  split; [vm_compute; left|].
  split; [vm_compute; right; left | vm_compute; reflexivity].
Qed.

End KnowledgeGraphFacts.

(* ===================================================================== *)
(** * ContextCompressor: packing into the budget *)
(* ===================================================================== *)

Module ContextCompressorFacts.
Import Js JsFacts ContextCompressor.

(** ** The stable sort by descending importance *)

Section SortFacts.
Context {A : Type} (before : A → A → bool) (R : A → A → Prop).
Hypothesis R_trans : ∀ a b c, R a b → R b c → R a c.
Hypothesis before_R : ∀ y x, before y x = true → R y x.
Hypothesis not_before_R : ∀ y x, before y x = false → R x y.

Lemma sort_insert_Permutation x l : sort_insert before x l ≡ₚ x :: l.
Proof.
  induction l as [|y l IH]; simpl; [done|].
  destruct (before y x); [|done]. rewrite IH. apply perm_swap.
Qed.

Lemma array_sort_Permutation l : array_sort before l ≡ₚ l.
Proof.
  unfold array_sort. induction l as [|x l IH]; simpl; [done|].
  by rewrite sort_insert_Permutation, IH.
Qed.

Lemma sort_insert_sorted x l :
  StronglySorted R l → StronglySorted R (sort_insert before x l).
Proof.
  induction 1 as [|y l Hl IH Hy]; simpl.
  - repeat constructor.
  - destruct (before y x) eqn:E.
    + constructor; [done|].
      apply Forall_forall. intros z Hz.
      rewrite sort_insert_Permutation in Hz. apply elem_of_cons in Hz as [->|Hz].
      * by apply before_R.
      * by apply (proj1 (Forall_forall _ _) Hy).
    + apply not_before_R in E. constructor; [by constructor|].
      constructor; [done|]. eapply Forall_impl; [exact Hy|].
      intros z Hz. by eapply R_trans.
Qed.

Lemma array_sort_sorted l : StronglySorted R (array_sort before l).
Proof.
  unfold array_sort. induction l as [|x l IH]; simpl; [constructor|].
  by apply sort_insert_sorted.
Qed.
End SortFacts.

Lemma moreImportant_sorted l : StronglySorted descending (array_sort moreImportant l).
Proof.
  apply array_sort_sorted; unfold descending, moreImportant.
  - intros a b c Hab Hbc. by eapply Qle_trans.
  - intros y x H. apply negb_true_iff in H.
    apply Qlt_le_weak, Qnot_le_lt. intros Hle. apply Qle_bool_iff in Hle. congruence.
  - intros y x H. apply negb_false_iff in H. by apply Qle_bool_iff.
Qed.

(** ** The loop of [fitComponentsInBudget] *)

Section Fitting.
Variable this : Compressor.

Lemma compressComponent_None c budget h :
  (compressComponent this c budget h).1 = None →
  (compressComponent this c budget h).2 = h.
Proof.
  unfold compressComponent, compressDependenciesComponent.
  repeat case_match; simpl; try done.
Qed.

Lemma compressComponent_not_Verbatim c budget h c' :
  (compressComponent this c budget h).1 ≠ Some (Verbatim c').
Proof.
  unfold compressComponent, compressDependenciesComponent, compressCodeComponent,
    compressDocumentationComponent.
  repeat case_match; simpl; done.
Qed.

Lemma fit_stopped budget l st :
  stopped st = true → fold_left (fitComponent this budget) l st = st.
Proof.
  intros Hs. induction l as [|c l IH]; simpl; [done|].
  unfold fitComponent at 2. by rewrite Hs.
Qed.

(** While the components fit, they are included as they are. *)
Lemma fit_verbatim budget pre st :
  stopped st = false →
  (usedTokens st + tokensOf this (store st) pre ≤ budget)%Z →
  fold_left (fitComponent this budget) pre st =
  {| result := result st ++ (Verbatim <$> pre);
     usedTokens := usedTokens st + tokensOf this (store st) pre;
     store := store st;
     stopped := false |}.
Proof.
  revert st. induction pre as [|c pre IH]; intros st Hs Hfit; simpl.
  - rewrite app_nil_r, Z.add_0_r. destruct st; simpl in *; by subst.
  - simpl in Hfit.
    assert (0 ≤ tokensOf this (store st) pre)%Z as Hpos.
    { clear. induction pre as [|c' pre IH]; simpl; [done|].
      unfold componentTokens at 1. lia. }
    unfold fitComponent at 2. rewrite Hs.
    rewrite (proj2 (Z.leb_le _ _)) by lia.
    rewrite IH; simpl; [|done|lia].
    f_equal; [by rewrite <- app_assoc | lia].
Qed.

(** Packing with [used] tokens already spent is packing into what is
    left of the budget. *)
Lemma fitComponent_shift budget res used st st' c :
  shifted res used st st' →
  shifted res used (fitComponent this budget st c)
                   (fitComponent this (budget - used) st' c).
Proof.
  destruct st as [r u h s], st' as [r' u' h' s']. unfold shifted. simpl.
  intros (-> & -> & -> & ->). unfold fitComponent. simpl.
  destruct s'; [done|].
  replace (u' + componentTokens this h' c <=? budget - used)%Z
    with (used + u' + componentTokens this h' c <=? budget)%Z
    by (destruct (Z.leb_spec (used + u' + componentTokens this h' c) budget),
                 (Z.leb_spec (u' + componentTokens this h' c) (budget - used)); lia).
  destruct (used + u' + componentTokens this h' c <=? budget)%Z; simpl.
  - split; [by rewrite app_assoc|]. split; [lia | done].
  - replace (budget - used - u')%Z with (budget - (used + u'))%Z by lia.
    destruct (compressComponent this c (budget - (used + u')) h') as [[p|] h'']; simpl.
    + split; [by rewrite app_assoc | done].
    + done.
Qed.

Lemma fit_shift budget l res used st st' :
  shifted res used st st' →
  shifted res used (fold_left (fitComponent this budget) l st)
                   (fold_left (fitComponent this (budget - used)) l st').
Proof.
  revert st st'. induction l as [|c l IH]; intros st st' H; simpl; [done|].
  by apply IH, fitComponent_shift.
Qed.

(** Before the loop stops, no array has been touched. *)
Lemma fit_store budget l st :
  stopped (fold_left (fitComponent this budget) l st) = false →
  stopped st = false ∧ store (fold_left (fitComponent this budget) l st) = store st.
Proof.
  revert st. induction l as [|c l IH]; intros st; simpl; [done|].
  intros Hs. apply IH in Hs as [Hs ->]. revert Hs. unfold fitComponent.
  destruct st as [r u h s]; simpl. destruct s; [done|].
  destruct (_ <=? _)%Z; simpl; [done|].
  pose proof (compressComponent_None c (budget - u) h) as Hnone.
  destruct (compressComponent this c _ h) as [[p|] h']; simpl in *; [done|].
  intros _. split; [done | by apply Hnone].
Qed.

(** With a negative budget nothing fits: a round of the loop only tries
    the compression. *)
Lemma fitComponent_negative budget h c :
  (budget < 0)%Z →
  fitComponent this budget (startFitting h) c =
  match compressComponent this c budget h with
  | (Some p, h') => {| result := [p]; usedTokens := 0; store := h'; stopped := true |}
  | (None, h') => {| result := []; usedTokens := 0; store := h'; stopped := false |}
  end.
Proof.
  intros Hneg. unfold fitComponent. simpl.
  rewrite (proj2 (Z.leb_gt _ _)) by (unfold componentTokens; lia).
  rewrite Z.sub_0_r. by destruct (compressComponent this c budget h) as [[p|] h'].
Qed.

(** The loop stops at the first component that can be compressed. *)
Lemma fit_negative_first budget h pre c post p :
  (budget < 0)%Z →
  (∀ c', c' ∈ pre → (compressComponent this c' budget h).1 = None) →
  (compressComponent this c budget h).1 = Some p →
  result (fold_left (fitComponent this budget) (pre ++ c :: post) (startFitting h)) = [p].
Proof.
  intros Hneg Hpre Hc. induction pre as [|c' pre IH]; simpl.
  - rewrite fitComponent_negative by done.
    destruct (compressComponent this c budget h) as [[q|] h']; simpl in Hc; [|done].
    injection Hc as ->. by rewrite fit_stopped.
  - rewrite fitComponent_negative by done.
    pose proof (compressComponent_None c' budget h) as Hnone.
    pose proof (Hpre c' (list_elem_of_here _ _)) as Hc'.
    destruct (compressComponent this c' budget h) as [[q|] h']; simpl in *; [done|].
    rewrite Hnone by done. apply IH. intros c'' Hin. apply Hpre. by right.
Qed.

Lemma fit_negative budget h l :
  (budget < 0)%Z →
  let st := fold_left (fitComponent this budget) l (startFitting h) in
  (result st = [] ∧ store st = h ∧
   ∀ c, c ∈ l → (compressComponent this c budget h).1 = None) ∨
  (∃ p c, result st = [p] ∧ c ∈ l ∧ (compressComponent this c budget h).1 = Some p).
Proof.
  intros Hneg. induction l as [|c l IH]; simpl.
  - left. split; [done|]. split; [done|]. by intros c ?%elem_of_nil.
  - rewrite fitComponent_negative by done.
    pose proof (compressComponent_None c budget h) as Hnone.
    destruct (compressComponent this c budget h) as [[p|] h'] eqn:E; simpl in *.
    + right. exists p, c. rewrite fit_stopped by done. simpl.
      split; [done|]. split; [left | by rewrite E].
    + rewrite Hnone by done. fold (startFitting h).
      destruct IH as [(Hr & Hh & Hall)|(p & c' & Hr & Hc' & Hp)].
      * left. split; [done|]. split; [done|].
        intros c' [->|?]%elem_of_cons; [by rewrite E | by apply Hall].
      * right. exists p, c'. split; [done|]. split; [by right | done].
Qed.
(** The loop, entered with some tokens spent, packs what is still to come
    into the unused budget. *)
Lemma fit_greedy budget l st :
  stopped st = false →
  result (fold_left (fitComponent this budget) l st)
    = result st ++ (greedyPacking this (budget - usedTokens st) (store st) l).1 ∧
  store (fold_left (fitComponent this budget) l st)
    = (greedyPacking this (budget - usedTokens st) (store st) l).2.
Proof.
  revert st. induction l as [|c l IH]; intros st Hs.
  - simpl. by rewrite app_nil_r.
  - cbn [fold_left greedyPacking].
    assert (fitComponent this budget st c =
            if (componentTokens this (store st) c <=? budget - usedTokens st)%Z then
              {| result := result st ++ [Verbatim c];
                 usedTokens := usedTokens st + componentTokens this (store st) c;
                 store := store st; stopped := false |}
            else
              match compressComponent this c (budget - usedTokens st) (store st) with
              | (Some p, h') =>
                  {| result := result st ++ [p]; usedTokens := usedTokens st;
                     store := h'; stopped := true |}
              | (None, h') =>
                  {| result := result st; usedTokens := usedTokens st;
                     store := h'; stopped := false |}
              end) as ->.
    { unfold fitComponent. rewrite Hs.
      by destruct (Z.leb_spec (usedTokens st + componentTokens this (store st) c) budget),
                  (Z.leb_spec (componentTokens this (store st) c) (budget - usedTokens st));
        try lia. }
    destruct (componentTokens this (store st) c <=? budget - usedTokens st)%Z.
    + destruct (IH {| result := result st ++ [Verbatim c];
                      usedTokens := usedTokens st + componentTokens this (store st) c;
                      store := store st; stopped := false |} eq_refl) as [Hr Hh].
      simpl in Hr, Hh. rewrite Hr, Hh. clear Hr Hh.
      replace (budget - (usedTokens st + componentTokens this (store st) c))%Z
        with (budget - usedTokens st - componentTokens this (store st) c)%Z by lia.
      destruct (greedyPacking this _ (store st) l) as [packed h']. simpl.
      by rewrite <- app_assoc.
    + pose proof (compressComponent_None c (budget - usedTokens st) (store st)) as Hn.
      destruct (compressComponent this c (budget - usedTokens st) (store st))
        as [[p|] h'] eqn:E; simpl in Hn.
      * by rewrite fit_stopped.
      * rewrite Hn by done.
        destruct (IH {| result := result st; usedTokens := usedTokens st;
                        store := store st; stopped := false |} eq_refl) as [Hr Hh].
        simpl in Hr, Hh. by rewrite Hr, Hh.
Qed.
End Fitting.

(** ** Properties of the compressor *)

(** C7. For every sequence of prioritized components and every
    non-negative budget, the loop of [fitComponentsInBudget] is the greedy
    packing of the specification: a component that fits the unused budget
    is included as it is; a component that does not fit is given to its
    compression with the unused budget, and either the compressed form
    ends the output, no later component being looked at, or, when the
    compression declines, the component is dropped and the packing goes on
    with the next one. The store comes out the same as well. *)
Theorem fitComponentsInBudget_greedy this components budget h :
  (0 ≤ budget)%Z →
  fitComponentsInBudget this components budget h
  = greedyPacking this budget h components.
Proof.
  intros _. unfold fitComponentsInBudget.
  destruct (fit_greedy this budget components (startFitting h) eq_refl) as [Hr Hh].
  simpl in Hr, Hh. rewrite Z.sub_0_r in Hr, Hh. rewrite Hr, Hh.
  by destruct (greedyPacking this budget h components).
Qed.

Lemma fitComponentsInBudget_greedy_witness :
  (0 ≤ 40)%Z ∧
  fitComponentsInBudget exampleCompressor
    [noteComponent; noteComponent; tagComponent; depsComponent; codeComponent]
    40 exampleStore
  = greedyPacking exampleCompressor 40 exampleStore
      [noteComponent; noteComponent; tagComponent; depsComponent; codeComponent] ∧
  (fitComponentsInBudget exampleCompressor
     [noteComponent; noteComponent; tagComponent; depsComponent; codeComponent]
     40 exampleStore).1
  = [Verbatim noteComponent; Verbatim tagComponent;
     TopDependencies [ {| name := "react"; importanceScore := 9 # 10 |} ] 3].
Proof.
  assert (0 ≤ 40)%Z as H0 by (vm_compute; discriminate).
  split; [exact H0|]. split.
  - exact (fitComponentsInBudget_greedy exampleCompressor
             [noteComponent; noteComponent; tagComponent; depsComponent; codeComponent]
             40 exampleStore H0).
  - vm_compute. reflexivity.
Defined.

(** C8 (as stated, refuted). The essential metadata alone costs more than
    [maxTokens], and the returned component list is not empty: it holds the
    summary of the code component. *)
Lemma compress_over_budget_not_empty :
  (remainingTokens exampleCompressor (exampleContext [codeComponent]) 5 < 0)%Z ∧
  components (compress exampleCompressor (exampleContext [codeComponent]) 5 exampleStore).1
  = [Summarized "code" "src/a.ts" EmptyString].
Proof. split; vm_compute; reflexivity. Qed.

(** C8 (amended). When the essential metadata alone costs more than
    [maxTokens], the returned object holds the essential metadata, no
    component is included as it is, and the component list has at most one
    entry: it is empty exactly when the compression of every prioritized
    component declines, and otherwise it holds only the compressed form of
    the first component whose compression returns a result. *)
Theorem compress_over_budget this context maxTokens h :
  (remainingTokens this context maxTokens < 0)%Z →
  let budget := remainingTokens this context maxTokens in
  let compressed := (compress this context maxTokens h).1 in
  essential compressed = extractEssentialMetadata context ∧
  (∀ c, Verbatim c ∉ components compressed) ∧
  (length (components compressed) ≤ 1)%nat ∧
  (components compressed = [] ↔
   ∀ c, c ∈ prioritize (prioritizer this) context →
        (compressComponent this c budget h).1 = None) ∧
  (∀ pre c post p,
     prioritize (prioritizer this) context = pre ++ c :: post →
     (∀ c', c' ∈ pre → (compressComponent this c' budget h).1 = None) →
     (compressComponent this c budget h).1 = Some p →
     components compressed = [p]).
Proof.
  intros Hneg budget compressed.
  assert (components compressed
          = result (fold_left (fitComponent this budget)
                      (prioritize (prioritizer this) context) (startFitting h))) as Hcomp
    by reflexivity.
  rewrite Hcomp. split; [reflexivity|].
  destruct (fit_negative this budget h (prioritize (prioritizer this) context) Hneg)
    as [(Hr & _ & Hall)|(p & c & Hr & Hc & Hp)]; simpl in *; rewrite Hr.
  - split; [by intros c ?%elem_of_nil|]. split; [simpl; lia|]. split; [done|].
    intros pre c post p Hprio _ Hp. rewrite Hall in Hp; [done|].
    rewrite Hprio. apply elem_of_app. right. left.
  - split; [|split; [simpl; lia|split]].
    + intros c' Hin%list_elem_of_singleton. subst p.
      by apply compressComponent_not_Verbatim in Hp.
    + split; [done|]. intros Hall. rewrite (Hall c Hc) in Hp. done.
    + intros pre c0 post p0 Hprio Hpre Hp0. rewrite <- Hr, Hprio.
      by apply fit_negative_first.
Qed.

Lemma compress_over_budget_witness :
  let context := exampleContext [noteComponent; codeComponent] in
  let budget := remainingTokens exampleCompressor context 5 in
  let compressed := (compress exampleCompressor context 5 exampleStore).1 in
  (remainingTokens exampleCompressor context 5 < 0)%Z ∧
  essential compressed = extractEssentialMetadata context ∧
  (∀ c, Verbatim c ∉ components compressed) ∧
  (length (components compressed) ≤ 1)%nat ∧
  (components compressed = [] ↔
   ∀ c, c ∈ prioritize (prioritizer exampleCompressor) context →
        (compressComponent exampleCompressor c budget exampleStore).1 = None) ∧
  (∀ pre c post p,
     prioritize (prioritizer exampleCompressor) context = pre ++ c :: post →
     (∀ c', c' ∈ pre → (compressComponent exampleCompressor c' budget exampleStore).1 = None) →
     (compressComponent exampleCompressor c budget exampleStore).1 = Some p →
     components compressed = [p]).
Proof.
  intros context budget compressed.
  assert (remainingTokens exampleCompressor context 5 < 0)%Z as H
    by (vm_compute; reflexivity).
  split; [exact H|].
  exact (compress_over_budget exampleCompressor context 5 exampleStore H).
Defined.

(** C10. [compress] changes its input: when the packing reaches a
    [dependencies] component [c] with a non-empty array (the loop has not
    stopped on the components before it) and [c] does not fit what is left
    of the budget, then after the call the array of [c] holds its former
    entries in descending order of [importanceScore], and every other array
    is as it was. *)
Theorem compress_sorts_in_place this context maxTokens h pre c post :
  prioritize (prioritizer this) context = pre ++ c :: post →
  let budget := remainingTokens this context maxTokens in
  let st := fold_left (fitComponent this budget) pre (startFitting h) in
  stopped st = false →
  (budget < usedTokens st + componentTokens this h c)%Z →
  type c = "dependencies" →
  h !!! dependencies c ≠ [] →
  let h' := (compress this context maxTokens h).2 in
  h' = <[dependencies c := array_sort moreImportant (h !!! dependencies c)]> h ∧
  h' !!! dependencies c ≡ₚ h !!! dependencies c ∧
  StronglySorted descending (h' !!! dependencies c) ∧
  (∀ l, l ≠ dependencies c → h' !!! l = h !!! l).
Proof.
  intros Hprio budget st Hs Hover Hty Hne h'.
  assert (h' = <[dependencies c := array_sort moreImportant (h !!! dependencies c)]> h)
    as ->.
  { destruct (fit_store this budget pre (startFitting h) Hs) as [_ Hh].
    fold st in Hh. simpl in Hh.
    assert (fitComponent this budget st c =
            {| result := result st ++
                 [TopDependencies
                    (slice0 (Z.max 1 ((budget - usedTokens st) / 50))
                       (array_sort moreImportant (h !!! dependencies c)))
                    (length (array_sort moreImportant (h !!! dependencies c)))];
               usedTokens := usedTokens st;
               store := <[dependencies c :=
                            array_sort moreImportant (h !!! dependencies c)]> h;
               stopped := true |}) as Hstep.
    { unfold fitComponent. rewrite Hs, Hh.
      rewrite (proj2 (Z.leb_gt _ _)) by lia.
      unfold compressComponent. rewrite Hty. simpl.
      unfold compressDependenciesComponent.
      destruct (h !!! dependencies c) as [|d ds] eqn:E; [done|]. simpl.
      by rewrite lookup_total_insert_eq. }
    unfold h', compress, fitComponentsInBudget.
    fold (remainingTokens this context maxTokens). fold budget.
    rewrite Hprio, fold_left_app. fold st. simpl.
    rewrite Hstep. by rewrite fit_stopped. }
  split; [done|]. rewrite lookup_total_insert_eq.
  split; [apply array_sort_Permutation|]. split; [apply moreImportant_sorted|].
  intros l Hl. by rewrite lookup_total_insert_ne.
Qed.

Lemma compress_sorts_in_place_witness :
  let context := exampleContext [noteComponent; depsComponent; codeComponent] in
  let budget := remainingTokens exampleCompressor context 60 in
  let st := fold_left (fitComponent exampleCompressor budget) [noteComponent]
              (startFitting exampleStore) in
  let h' := (compress exampleCompressor context 60 exampleStore).2 in
  prioritize (prioritizer exampleCompressor) context
    = [noteComponent] ++ depsComponent :: [codeComponent] ∧
  stopped st = false ∧
  (budget < usedTokens st + componentTokens exampleCompressor exampleStore depsComponent)%Z ∧
  type depsComponent = "dependencies" ∧
  exampleStore !!! dependencies depsComponent ≠ [] ∧
  h' = <[dependencies depsComponent :=
           array_sort moreImportant (exampleStore !!! dependencies depsComponent)]>
         exampleStore ∧
  h' !!! dependencies depsComponent ≡ₚ exampleStore !!! dependencies depsComponent ∧
  StronglySorted descending (h' !!! dependencies depsComponent) ∧
  (∀ l, l ≠ dependencies depsComponent → h' !!! l = exampleStore !!! l).
Proof.
  intros context budget st h'.
  assert (prioritize (prioritizer exampleCompressor) context
          = [noteComponent] ++ depsComponent :: [codeComponent]) as H1 by reflexivity.
  assert (stopped st = false) as H2 by (vm_compute; reflexivity).
  assert (budget < usedTokens st
                   + componentTokens exampleCompressor exampleStore depsComponent)%Z as H3
    by (vm_compute; reflexivity).
  assert (type depsComponent = "dependencies") as H4 by reflexivity.
  assert (exampleStore !!! dependencies depsComponent ≠ []) as H5
    by (vm_compute; discriminate).
  split; [exact H1|]. split; [exact H2|]. split; [exact H3|]. split; [exact H4|].
  split; [exact H5|].
  exact (compress_sorts_in_place exampleCompressor context 60 exampleStore
           [noteComponent] depsComponent [codeComponent] H1 H2 H3 H4 H5).
Defined.


(** ** More on the packing loop *)

Section Packing.
Variable this : Compressor.

Lemma fit_packFrom budget l st :
  stopped st = false →
  result (fold_left (fitComponent this budget) l st)
    = result st ++ (packFrom this budget (usedTokens st) (store st) l).1 ∧
  store (fold_left (fitComponent this budget) l st)
    = (packFrom this budget (usedTokens st) (store st) l).2.
Proof.
  revert st. induction l as [|c l IH]; intros st Hs; simpl.
  - by rewrite app_nil_r.
  - unfold fitComponent at 2 4. rewrite Hs.
    destruct (usedTokens st + componentTokens this (store st) c <=? budget)%Z.
    + destruct (IH {| result := result st ++ [Verbatim c];
                      usedTokens := usedTokens st + componentTokens this (store st) c;
                      store := store st; stopped := false |} eq_refl) as [Hr Hh].
      simpl in Hr, Hh. rewrite Hr, Hh.
      destruct (packFrom this budget _ (store st) l) as [r h']. simpl.
      by rewrite <- app_assoc.
    + pose proof (compressComponent_None this c (budget - usedTokens st) (store st)) as Hn.
      destruct (compressComponent this c (budget - usedTokens st) (store st))
        as [[p|] h']; simpl in *.
      * by rewrite fit_stopped.
      * rewrite Hn by done.
        destruct (IH {| result := result st; usedTokens := usedTokens st;
                        store := store st; stopped := false |} eq_refl) as [Hr Hh].
        done.
Qed.

Lemma fitComponentsInBudget_packFrom l budget h :
  fitComponentsInBudget this l budget h = packFrom this budget 0 h l.
Proof.
  unfold fitComponentsInBudget.
  destruct (fit_packFrom budget l (startFitting h) eq_refl) as [Hr Hh].
  simpl in Hr, Hh. rewrite Hr, Hh. by destruct (packFrom this budget 0 h l).
Qed.

Lemma tokensOf_nonneg h l : (0 ≤ tokensOf this h l)%Z.
Proof.
  induction l as [|c l IH]; simpl; [done|]. unfold componentTokens at 1. lia.
Qed.

Lemma tokensOf_app h l1 l2 :
  tokensOf this h (l1 ++ l2) = (tokensOf this h l1 + tokensOf this h l2)%Z.
Proof. induction l1 as [|c l1 IH]; simpl; [done|]. rewrite IH. lia. Qed.

Lemma compressComponent_isCompressed c budget h p :
  (compressComponent this c budget h).1 = Some p → isCompressed p.
Proof. intros Hp c' ->. by apply compressComponent_not_Verbatim in Hp. Qed.

(** The output is a run of input components, in their order, followed by at
    most one compressed entry; the run fits the budget. *)
Lemma packFrom_shape budget used h l :
  ∃ vs tail,
    (packFrom this budget used h l).1 = (Verbatim <$> vs) ++ tail ∧
    vs `sublist_of` l ∧
    (tail = [] ∨ ∃ p, tail = [p] ∧ isCompressed p) ∧
    (vs = [] ∨ (used + tokensOf this h vs ≤ budget)%Z).
Proof.
  revert used. induction l as [|c l IH]; intros used; simpl.
  - exists [], []. split; [done|]. split; [done|]. split; by left.
  - destruct (Z.leb_spec (used + componentTokens this h c) budget) as [Hfit|Hover].
    + destruct (IH (used + componentTokens this h c)%Z) as (vs & tail & Hr & Hsub & Ht & Hb).
      destruct (packFrom this budget _ h l) as [r h']. simpl in *.
      exists (c :: vs), tail. split; [by rewrite Hr|].
      split; [by apply sublist_skip|]. split; [done|]. right.
      destruct Hb as [->|Hb]; simpl; lia.
    + pose proof (compressComponent_isCompressed c (budget - used) h) as Hc.
      destruct (compressComponent this c (budget - used) h) as [[p|] h']; simpl in *.
      * exists [], [p]. split; [done|]. split; [apply sublist_nil_l|].
        split; [|by left]. right. exists p. split; [done | by apply Hc].
      * destruct (IH used) as (vs & tail & Hr & Hsub & Ht & Hb).
        exists vs, tail. split; [done|]. split; [by apply sublist_cons|]. done.
Qed.

Lemma verbatims_shape vs tail :
  (tail = [] ∨ ∃ p, tail = [p] ∧ isCompressed p) →
  verbatims ((Verbatim <$> vs) ++ tail) = vs.
Proof.
  intros Ht. unfold verbatims. rewrite omap_app.
  assert (omap (λ p, match p with Verbatim c => Some c | _ => None end)
               (Verbatim <$> vs) = vs) as ->.
  { induction vs as [|v vs IH]; csimpl; [done | by rewrite IH]. }
  destruct Ht as [->|(p & -> & Hp)]; csimpl; [by rewrite app_nil_r|].
  destruct p as [c| |]; [by destruct (Hp c) | by rewrite app_nil_r..].
Qed.

(** The store after the loop: untouched, or one non-empty array sorted. *)
Lemma compressComponent_store c budget h :
  (compressComponent this c budget h).2 = h ∨
  (compressComponent this c budget h).2
    = <[dependencies c := array_sort moreImportant (h !!! dependencies c)]> h.
Proof.
  unfold compressComponent, compressDependenciesComponent.
  repeat case_match; simpl; auto.
Qed.

Lemma packFrom_store budget used h l :
  (packFrom this budget used h l).2 = h ∨
  ∃ c, c ∈ l ∧
       (packFrom this budget used h l).2
         = <[dependencies c := array_sort moreImportant (h !!! dependencies c)]> h.
Proof.
  revert used. induction l as [|c l IH]; intros used; simpl; [by left|].
  destruct (used + componentTokens this h c <=? budget)%Z.
  - destruct (IH (used + componentTokens this h c)%Z) as [Hh|(c' & Hc' & Hh)];
      destruct (packFrom this budget _ h l) as [r h']; simpl in *.
    + by left.
    + right. exists c'. split; [by right | done].
  - pose proof (compressComponent_store c (budget - used) h) as Hst.
    destruct (compressComponent this c (budget - used) h) as [[p|] h']; simpl in *.
    + destruct Hst as [->| ->]; [by left|]. right. exists c. split; [left | done].
    + destruct (IH used) as [Hh|(c' & Hc' & Hh)]; [by left|].
      right. exists c'. split; [by right | done].
Qed.
End Packing.

Lemma array_sort_length (l : list Dependency) :
  length (array_sort moreImportant l) = length l.
Proof. by rewrite array_sort_Permutation. Qed.

Lemma compressDependenciesComponent_nonempty c budget h :
  h !!! dependencies c ≠ [] →
  compressDependenciesComponent c budget h =
  (Some (TopDependencies
           (take (Z.to_nat (Z.max 1 (budget / 50)))
                 (array_sort moreImportant (h !!! dependencies c)))
           (length (h !!! dependencies c))),
   <[dependencies c := array_sort moreImportant (h !!! dependencies c)]> h).
Proof.
  intros Hne. unfold compressDependenciesComponent.
  assert ((0 <? length (h !!! dependencies c))%nat = true) as ->.
  { destruct (h !!! dependencies c); [done | reflexivity]. }
  rewrite lookup_total_insert_eq, array_sort_length.
  unfold slice0. by rewrite decide_True by lia.
Qed.

(** A sorted array is left as it is by the sort. *)
Lemma array_sort_sorted_id l :
  StronglySorted descending l → array_sort moreImportant l = l.
Proof.
  unfold array_sort. induction 1 as [|x l Hl IH Hx]; simpl; [done|].
  rewrite IH. destruct l as [|y l']; simpl; [done|].
  apply Forall_inv in Hx. unfold descending in Hx. unfold moreImportant.
  apply Qle_bool_iff in Hx. by rewrite Hx.
Qed.

Lemma compress_unfold this context maxTokens h :
  compress this context maxTokens h =
  ({| essential := extractEssentialMetadata context;
      components := (packFrom this (remainingTokens this context maxTokens) 0 h
                       (prioritize (prioritizer this) context)).1 |},
   (packFrom this (remainingTokens this context maxTokens) 0 h
      (prioritize (prioritizer this) context)).2).
Proof.
  unfold compress. fold (remainingTokens this context maxTokens).
  rewrite fitComponentsInBudget_packFrom. by destruct (packFrom _ _ _ _ _).
Qed.

(** ** Further properties of the compressor *)

(** X1. The token cost of the components that [compress] includes as they
    are never exceeds the budget left after the essential metadata; when that
    budget is negative, no component is included as it is. *)
Theorem compress_verbatim_cost this context maxTokens h :
  (tokensOf this h (verbatims (components (compress this context maxTokens h).1))
   ≤ Z.max 0 (remainingTokens this context maxTokens))%Z.
Proof.
  rewrite compress_unfold. simpl.
  destruct (packFrom_shape this (remainingTokens this context maxTokens) 0 h
              (prioritize (prioritizer this) context))
    as (vs & tail & -> & _ & Ht & Hb).
  rewrite verbatims_shape by done.
  destruct Hb as [->|Hb]; simpl; lia.
Qed.

(** X2. The output of [compress] lists input components in their priority
    order, without repetition of a position, followed by at most one
    compressed entry, which is then the last one. *)
Theorem compress_shape this context maxTokens h :
  ∃ vs tail,
    components (compress this context maxTokens h).1 = (Verbatim <$> vs) ++ tail ∧
    vs `sublist_of` prioritize (prioritizer this) context ∧
    (tail = [] ∨ ∃ p, tail = [p] ∧ isCompressed p).
Proof.
  rewrite compress_unfold. simpl.
  destruct (packFrom_shape this (remainingTokens this context maxTokens) 0 h
              (prioritize (prioritizer this) context))
    as (vs & tail & Hr & Hsub & Ht & _).
  by exists vs, tail.
Qed.

(** X3. When all prioritized components together fit the remaining budget,
    [compress] returns all of them as they are, in priority order, and
    changes no array. *)
Theorem compress_all_fit this context maxTokens h :
  (tokensOf this h (prioritize (prioritizer this) context)
   ≤ remainingTokens this context maxTokens)%Z →
  compress this context maxTokens h =
  ({| essential := extractEssentialMetadata context;
      components := Verbatim <$> prioritize (prioritizer this) context |}, h).
Proof.
  intros Hfit. unfold compress, fitComponentsInBudget.
  fold (remainingTokens this context maxTokens).
  rewrite fit_verbatim; simpl; [done | done | lia].
Qed.

Lemma compress_all_fit_witness :
  (tokensOf exampleCompressor exampleStore
     (prioritize (prioritizer exampleCompressor) (exampleContext [noteComponent; codeComponent]))
   ≤ remainingTokens exampleCompressor (exampleContext [noteComponent; codeComponent]) 100)%Z ∧
  compress exampleCompressor (exampleContext [noteComponent; codeComponent]) 100 exampleStore =
  ({| essential := extractEssentialMetadata (exampleContext [noteComponent; codeComponent]);
      components := Verbatim <$> prioritize (prioritizer exampleCompressor)
                                   (exampleContext [noteComponent; codeComponent]) |},
   exampleStore).
Proof.
  assert (tokensOf exampleCompressor exampleStore
            (prioritize (prioritizer exampleCompressor)
               (exampleContext [noteComponent; codeComponent]))
          ≤ remainingTokens exampleCompressor
              (exampleContext [noteComponent; codeComponent]) 100)%Z as H
    by (vm_compute; discriminate).
  split; [exact H|].
  exact (compress_all_fit exampleCompressor (exampleContext [noteComponent; codeComponent])
           100 exampleStore H).
Defined.

(** X26. Let the components [pre] fit the budget one after the other, and
    let [c] be the first component that does not fit what is left. Then the
    output starts with [pre], unchanged. If the compression of [c] with the
    unused budget returns a result, that result ends the output and [post]
    is not considered; if it declines, [c] is left out and the output goes on
    with the packing of [post] into the unused budget. *)
Theorem fitComponentsInBudget_first_overflow this pre c post budget h :
  (tokensOf this h pre ≤ budget)%Z →
  (budget < tokensOf this h pre + componentTokens this h c)%Z →
  fitComponentsInBudget this (pre ++ c :: post) budget h =
  match compressComponent this c (budget - tokensOf this h pre) h with
  | (Some compressed, h') => ((Verbatim <$> pre) ++ [compressed], h')
  | (None, _) =>
      let (packed, h') :=
        fitComponentsInBudget this post (budget - tokensOf this h pre) h in
      ((Verbatim <$> pre) ++ packed, h')
  end.
Proof.
  intros Hfit Hover. unfold fitComponentsInBudget.
  set (st := {| result := Verbatim <$> pre; usedTokens := tokensOf this h pre;
                store := h; stopped := false |}).
  assert (fold_left (fitComponent this budget) pre (startFitting h) = st) as Hpre.
  { rewrite fit_verbatim; simpl; [done | done | lia]. }
  assert (fitComponent this budget st c =
          match compressComponent this c (budget - tokensOf this h pre) h with
          | (Some p, h') =>
              {| result := (Verbatim <$> pre) ++ [p]; usedTokens := tokensOf this h pre;
                 store := h'; stopped := true |}
          | (None, h') =>
              {| result := Verbatim <$> pre; usedTokens := tokensOf this h pre;
                 store := h'; stopped := false |}
          end) as Hstep.
  { unfold fitComponent. simpl. rewrite (proj2 (Z.leb_gt _ _)) by lia.
    by destruct (compressComponent this c _ h) as [[p|] h']. }
  rewrite fold_left_app, Hpre. simpl. rewrite Hstep.
  pose proof (compressComponent_None this c (budget - tokensOf this h pre) h) as Hnone.
  destruct (compressComponent this c (budget - tokensOf this h pre) h) as [[p|] h'];
    simpl in *.
  - by rewrite fit_stopped.
  - rewrite Hnone by done. fold st.
    destruct (fit_shift this budget post (Verbatim <$> pre) (tokensOf this h pre)
                st (startFitting h)) as (Hr & _ & Hh & _).
    { split; simpl; [by rewrite app_nil_r|]. split; [lia | done]. }
    by rewrite Hr, Hh.
Qed.

Lemma fitComponentsInBudget_first_overflow_witness :
  (tokensOf exampleCompressor exampleStore [noteComponent] ≤ 40)%Z ∧
  (40 < tokensOf exampleCompressor exampleStore [noteComponent]
        + componentTokens exampleCompressor exampleStore depsComponent)%Z ∧
  fitComponentsInBudget exampleCompressor
    ([noteComponent] ++ depsComponent :: [codeComponent]) 40 exampleStore =
  match compressComponent exampleCompressor depsComponent
          (40 - tokensOf exampleCompressor exampleStore [noteComponent]) exampleStore with
  | (Some compressed, h') => ((Verbatim <$> [noteComponent]) ++ [compressed], h')
  | (None, _) =>
      let (packed, h') :=
        fitComponentsInBudget exampleCompressor [codeComponent]
          (40 - tokensOf exampleCompressor exampleStore [noteComponent]) exampleStore in
      ((Verbatim <$> [noteComponent]) ++ packed, h')
  end.
Proof.
  assert (tokensOf exampleCompressor exampleStore [noteComponent] ≤ 40)%Z as H1
    by (vm_compute; discriminate).
  assert (40 < tokensOf exampleCompressor exampleStore [noteComponent]
               + componentTokens exampleCompressor exampleStore depsComponent)%Z as H2
    by (vm_compute; reflexivity).
  split; [exact H1|]. split; [exact H2|].
  exact (fitComponentsInBudget_first_overflow exampleCompressor [noteComponent]
           depsComponent [codeComponent] 40 exampleStore H1 H2).
Defined.

(** X4. [compress] never adds, removes or alters a dependency entry: after
    the call every array holds the entries it held before, possibly in another
    order, and at most one array has changed at all. *)
Theorem compress_store_permutation this context maxTokens h :
  (∀ l, (compress this context maxTokens h).2 !!! l ≡ₚ h !!! l) ∧
  ∃ l0, ∀ l, l ≠ l0 → (compress this context maxTokens h).2 !!! l = h !!! l.
Proof.
  rewrite compress_unfold. simpl.
  destruct (packFrom_store this (remainingTokens this context maxTokens) 0 h
              (prioritize (prioritizer this) context)) as [->|(c & _ & ->)].
  - split; [done|]. by exists 1%positive.
  - split.
    + intros l. destruct (decide (l = dependencies c)) as [->|Hne].
      * rewrite lookup_total_insert_eq. apply array_sort_Permutation.
      * by rewrite lookup_total_insert_ne.
    + exists (dependencies c). intros l Hne. by rewrite lookup_total_insert_ne.
Qed.

(** X5. Compressing a [dependencies] component with a non-empty array keeps
    the first [max(1, floor(budget / 50))] entries of the array sorted by
    descending importance (all of them if there are fewer), records the
    original number of entries as [totalCount], and every kept entry is at
    least as important as every entry left out. *)
Theorem compressDependenciesComponent_top c budget h :
  h !!! dependencies c ≠ [] →
  ∃ kept dropped,
    (compressDependenciesComponent c budget h).1
      = Some (TopDependencies kept (length (h !!! dependencies c))) ∧
    kept ++ dropped ≡ₚ h !!! dependencies c ∧
    length kept = (Z.to_nat (Z.max 1 (budget / 50)) `min` length (h !!! dependencies c))%nat ∧
    StronglySorted descending kept ∧
    ∀ a b, a ∈ kept → b ∈ dropped → descending a b.
Proof.
  intros Hne. rewrite compressDependenciesComponent_nonempty by done. simpl.
  set (deps := h !!! dependencies c) in *.
  set (k := Z.to_nat (Z.max 1 (budget / 50))).
  exists (take k (array_sort moreImportant deps)), (drop k (array_sort moreImportant deps)).
  assert (StronglySorted descending
            (take k (array_sort moreImportant deps) ++ drop k (array_sort moreImportant deps)))
    as Hsorted by (rewrite take_drop; apply moreImportant_sorted).
  split; [done|].
  split; [rewrite take_drop; apply array_sort_Permutation|].
  split; [by rewrite length_take, array_sort_length|].
  split; [by apply StronglySorted_app_1_l in Hsorted|].
  intros a b Ha Hb. by apply (StronglySorted_app_1_elem_of _ _ _ a b) in Hsorted.
Qed.

Lemma compressDependenciesComponent_top_witness :
  exampleStore !!! dependencies depsComponent ≠ [] ∧
  ∃ kept dropped,
    (compressDependenciesComponent depsComponent 120 exampleStore).1
      = Some (TopDependencies kept (length (exampleStore !!! dependencies depsComponent))) ∧
    kept ++ dropped ≡ₚ exampleStore !!! dependencies depsComponent ∧
    length kept = (Z.to_nat (Z.max 1 (120 / 50))
                   `min` length (exampleStore !!! dependencies depsComponent))%nat ∧
    StronglySorted descending kept ∧
    ∀ a b, a ∈ kept → b ∈ dropped → descending a b.
Proof.
  assert (exampleStore !!! dependencies depsComponent ≠ []) as H
    by (vm_compute; discriminate).
  split; [exact H|].
  exact (compressDependenciesComponent_top depsComponent 120 exampleStore H).
Defined.

(** X6. Compressing the same [dependencies] component a second time gives
    the same result and leaves the array as the first call left it. *)
Theorem compressDependenciesComponent_again c budget h :
  compressDependenciesComponent c budget (compressDependenciesComponent c budget h).2
  = compressDependenciesComponent c budget h.
Proof.
  destruct (decide (h !!! dependencies c = [])) as [Hnil|Hne].
  - unfold compressDependenciesComponent. rewrite Hnil. simpl. by rewrite Hnil.
  - rewrite (compressDependenciesComponent_nonempty c budget h) by done. simpl.
    assert (array_sort moreImportant (h !!! dependencies c) ≠ []) as Hne'.
    { intros Hnil. apply Hne, Permutation_nil_r.
      by rewrite <- Hnil, array_sort_Permutation. }
    rewrite compressDependenciesComponent_nonempty
      by (by rewrite lookup_total_insert_eq).
    rewrite lookup_total_insert_eq, insert_insert_eq, array_sort_length.
    by rewrite array_sort_sorted_id by apply moreImportant_sorted.
Qed.

End ContextCompressorFacts.

(* ===================================================================== *)
(** * KnowledgeGraphService: more on the queries *)
(* ===================================================================== *)

Module KnowledgeGraphQueries.
Import Js JsFacts KnowledgeGraph.

(** ** Keywords *)

Lemma lower_lower c : lower (lower c) = lower c.
Proof. destruct c as [[] [] [] [] [] [] [] []]; reflexivity. Qed.

Lemma lower_not_space c : is_space (lower c) = is_space c.
Proof. destruct c as [[] [] [] [] [] [] [] []]; reflexivity. Qed.

Lemma chars_toLowerCase s : Forall (λ c, lower c = c) (chars (toLowerCase s)).
Proof.
  unfold chars. induction s as [|c s IH]; simpl; constructor; [apply lower_lower | done].
Qed.

Lemma chars_strip_punctuation (P : ascii → Prop) s :
  Forall P (chars s) →
  Forall (λ c, P c ∧ (is_word c || is_space c) = true) (chars (strip_punctuation s)).
Proof.
  unfold chars. induction s as [|c s IH]; simpl; [constructor|].
  intros [Hc Hs]%Forall_cons. destruct (is_word c || is_space c) eqn:E; simpl; auto.
Qed.

Lemma chars_string_of_list l : chars (string_of_list_ascii l) = l.
Proof. apply list_ascii_of_string_of_list_ascii. Qed.

Lemma split_spaces_from_pieces (P : ascii → Prop) s cur in_run :
  Forall P (chars s) →
  Forall (λ c, P c ∧ is_space c = false) cur →
  Forall (λ piece, Forall (λ c, P c ∧ is_space c = false) (chars piece))
         (split_spaces_from s cur in_run).
Proof.
  unfold chars at 1. revert cur in_run.
  induction s as [|c s IH]; intros cur in_run Hs Hcur; simpl.
  - constructor; [|constructor]. rewrite chars_string_of_list.
    by apply Forall_rev.
  - apply Forall_cons in Hs as [Hc Hs]. destruct (is_space c) eqn:E.
    + destruct in_run; [by apply IH|].
      constructor; [|by apply IH].
      rewrite chars_string_of_list. by apply Forall_rev.
    + apply IH; [done|]. by constructor.
Qed.

Lemma length_chars s : length (chars s) = String.length s.
Proof. unfold chars. induction s as [|c s IH]; simpl; [done | by rewrite IH]. Qed.

(** X7. Every keyword that [extractKeywords] returns has at least four
    characters, is none of the stop words, and consists of lowercase letters,
    digits and underscores only. *)
Theorem extractKeywords_words query keyword :
  keyword ∈ extractKeywords query →
  (3 < String.length keyword)%nat ∧ (keyword ∉ stopWords) ∧
  Forall lowerWord (chars keyword).
Proof.
  unfold extractKeywords.
  intros [Hstop [Hlen Hin]%list_elem_of_filter]%list_elem_of_filter.
  split; [done|]. split; [done|].
  pose proof (split_spaces_from_pieces
                (λ c, lower c = c ∧ (is_word c || is_space c) = true)
                (strip_punctuation (toLowerCase query)) [] false) as Hpieces.
  assert (Forall (λ c, (lower c = c ∧ (is_word c || is_space c) = true)
                       ∧ is_space c = false) (chars keyword)) as Hk.
  { refine (proj1 (Forall_forall _ _) (Hpieces _ _) keyword Hin); [|constructor].
    apply chars_strip_punctuation, chars_toLowerCase. }
  eapply Forall_impl; [exact Hk|]. intros c [[Hl Hw] Hs]. split; [|done].
  rewrite Hs in Hw. by rewrite orb_false_r in Hw.
Qed.

Lemma extractKeywords_words_witness :
  "parser" ∈ extractKeywords "Refactor the PARSER, please!" ∧
  (3 < String.length "parser")%nat ∧ ("parser" ∉ stopWords) ∧
  Forall lowerWord (chars "parser").
Proof.
  assert ("parser" ∈ extractKeywords "Refactor the PARSER, please!") as H
    by (vm_compute; right; left).
  split; [exact H|].
  exact (extractKeywords_words "Refactor the PARSER, please!" "parser" H).
Defined.

(** ** Selection of nodes and edges *)

Lemma countByType_from (types : list string) (counts : gmap string nat) ty :
  fold_left (λ counts ty, <[ty := (default 0 (counts !! ty) + 1)%nat]> counts) types counts
    !! ty =
  (if (length (filter (λ t, t = ty) types) =? 0)%nat then counts !! ty
   else Some (default 0 (counts !! ty) + length (filter (λ t, t = ty) types))%nat).
Proof.
  revert counts. induction types as [|t types IH]; intros counts; simpl; [done|].
  rewrite IH. destruct (decide (t = ty)) as [->|Hne].
  - rewrite filter_cons_True by done. simpl. rewrite lookup_insert_eq. simpl.
    destruct (length (filter (λ t, t = ty) types)) as [|n]; simpl; f_equal; lia.
  - rewrite filter_cons_False by done. by rewrite lookup_insert_ne.
Qed.

Lemma countByType_tally types ty : countByType types !! ty = tally types ty.
Proof.
  unfold countByType, tally. rewrite countByType_from, lookup_empty. simpl.
  by destruct (length (filter (λ t, t = ty) types)).
Qed.

Section Selection.
Context {NodeData EdgeData : Type}.
Variable JSON_stringify : NodeData → string.
Variable graph : Graph NodeData EdgeData.

Lemma copy_node (n : GraphNode NodeData) :
  {| node_id := node_id n; node_type := node_type n; node_data := node_data n |} = n.
Proof. by destruct n. Qed.

Lemma copy_edge (e : GraphEdge EdgeData) :
  {| edge_from := edge_from e; edge_to := edge_to e;
     edge_type := edge_type e; edge_data := edge_data e |} = e.
Proof. by destruct e. Qed.

(** One round of the loop of [buildContextFromNodes], read off. *)
Lemma addNodeToContext_unfold b (sn : ScoredNode NodeData) :
  addNodeToContext graph b sn =
  {| b_entities := b_entities b ++ [node sn];
     b_relationships :=
       b_relationships b ++
       filter (λ edge, edge_to edge ∈ set_add (node_id (node sn)) (includedNodeIds b))
         (filter (λ edge, edge_from edge = node_id (node sn)) (edges graph));
     includedNodeIds := set_add (node_id (node sn)) (includedNodeIds b) |}.
Proof.
  unfold addNodeToContext, getEdgesFrom. rewrite copy_node. f_equal. f_equal.
  set (copy := λ edge : GraphEdge EdgeData, _).
  assert (∀ l, copy <$> l = l) as ->.
  { induction l as [|e l IH]; csimpl; [done|]. rewrite IH. f_equal. apply copy_edge. }
  apply list_filter_iff. intros e. apply set_has_true.
Qed.

Lemma building_entities l b :
  b_entities (fold_left (addNodeToContext graph) l b) = b_entities b ++ (node <$> l).
Proof.
  revert b. induction l as [|sn l IH]; intros b; simpl; [by rewrite app_nil_r|].
  rewrite IH, addNodeToContext_unfold. simpl. by rewrite <- app_assoc.
Qed.

Lemma building_relationships_edges l b :
  (∀ r, r ∈ b_relationships b → r ∈ edges graph) →
  ∀ r, r ∈ b_relationships (fold_left (addNodeToContext graph) l b) → r ∈ edges graph.
Proof.
  revert b. induction l as [|sn l IH]; intros b Hb; simpl; [done|].
  apply IH. rewrite addNodeToContext_unfold. simpl. intros r [Hr|Hr]%elem_of_app; [auto|].
  by apply list_elem_of_filter in Hr as [_ [_ ?]%list_elem_of_filter].
Qed.

Lemma buildContextFromNodes_entities l :
  entities (buildContextFromNodes graph l) = node <$> l.
Proof. unfold buildContextFromNodes. simpl. by rewrite building_entities. Qed.

Lemma scoreNode_from keywords ty acc l :
  ∃ picked,
    node <$> fold_left (scoreNode JSON_stringify keywords ty) l acc
      = (node <$> acc) ++ picked ∧
    picked `sublist_of` l.
Proof.
  revert acc. induction l as [|n l IH]; intros acc; simpl.
  - exists []. by rewrite app_nil_r.
  - destruct (IH (scoreNode JSON_stringify keywords ty acc n)) as (picked & -> & Hsub).
    unfold scoreNode. destruct (above_zero _ || above_zero _).
    + exists (n :: picked). rewrite fmap_app, <- app_assoc. split; [done|].
      by apply sublist_skip.
    + exists picked. split; [done | by apply sublist_cons].
Qed.

Lemma findRelevantNodes_sublist keywords ty :
  node <$> findRelevantNodes JSON_stringify graph keywords ty `sublist_of` nodes graph.
Proof.
  unfold findRelevantNodes, getAllNodes.
  by destruct (scoreNode_from keywords ty [] (nodes graph)) as (picked & -> & Hsub).
Qed.

Lemma slice0_take {A : Type} (stop : Z) (l : list A) : ∃ k, slice0 stop l = take k l.
Proof. unfold slice0. case_decide; eauto. Qed.

(** The steps of [getRelevantContext], named. *)
Lemma getRelevantContext_Return taskMessage maxNodes ctx :
  getRelevantContext JSON_stringify graph taskMessage maxNodes = Return ctx →
  ∃ text,
    content taskMessage = Some text ∧
    ctx = buildContextFromNodes graph
            (slice0 maxNodes
               (array_sort (λ a b, less (relevance b) (relevance a))
                  (findRelevantNodes JSON_stringify graph
                     (extractKeywords (toLowerCase text)) (taskTypeOf taskMessage)))).
Proof.
  unfold getRelevantContext, taskTypeOf. destruct (content taskMessage) as [text|]; [|done].
  intros [= <-]. by exists text.
Qed.

(** X8. Everything that [getRelevantContext] returns is taken from the
    graph: each entity is a node of the graph, each relationship an edge of
    the graph, and when the node ids of the graph are distinct, so are the
    ids of the returned entities. *)
Theorem getRelevantContext_from_graph taskMessage maxNodes ctx :
  getRelevantContext JSON_stringify graph taskMessage maxNodes = Return ctx →
  (∀ n, n ∈ entities ctx → n ∈ nodes graph) ∧
  (∀ r, r ∈ relationships ctx → r ∈ edges graph) ∧
  (NoDup (node_id <$> nodes graph) → NoDup (node_id <$> entities ctx)).
Proof.
  intros (text & _ & ->)%getRelevantContext_Return.
  rewrite buildContextFromNodes_entities.
  set (relevant := findRelevantNodes JSON_stringify graph
                     (extractKeywords (toLowerCase text)) (taskTypeOf taskMessage)).
  set (sorted := array_sort (λ a b, less (relevance b) (relevance a)) relevant).
  destruct (slice0_take maxNodes sorted) as [k ->].
  assert (sorted ≡ₚ relevant) as Hperm
    by apply ContextCompressorFacts.array_sort_Permutation.
  pose proof (findRelevantNodes_sublist (extractKeywords (toLowerCase text))
                (taskTypeOf taskMessage)) as Hsub.
  fold relevant in Hsub.
  split; [|split].
  - intros n (sn & -> & Hin)%list_elem_of_fmap.
    apply (elem_of_sublist (node <$> relevant)); [|done].
    apply list_elem_of_fmap. exists sn. split; [done|].
    rewrite <- Hperm. by apply (elem_of_sublist (take k sorted)); [|apply sublist_take].
  - unfold buildContextFromNodes. simpl. apply building_relationships_edges.
    simpl. by intros r ?%elem_of_nil.
  - intros Hnd.
    assert (NoDup (node_id <$> (node <$> sorted))) as Hs.
    { rewrite Hperm. eapply sublist_NoDup; [exact Hnd|]. by apply fmap_sublist. }
    eapply sublist_NoDup; [exact Hs|]. apply fmap_sublist, fmap_sublist, sublist_take.
Qed.

(** X9. With a non-negative maximum, [getRelevantContext] returns as many
    entities as there are relevant nodes, but no more than [maxNodes]: the
    smaller of the two numbers. *)
Theorem getRelevantContext_count taskMessage text maxNodes :
  content taskMessage = Some text →
  (0 ≤ maxNodes)%Z →
  ∃ ctx,
    getRelevantContext JSON_stringify graph taskMessage maxNodes = Return ctx ∧
    length (entities ctx)
      = (Z.to_nat maxNodes
         `min` length (findRelevantNodes JSON_stringify graph
                         (extractKeywords (toLowerCase text)) (taskTypeOf taskMessage)))%nat.
Proof.
  intros Hc Hn. unfold getRelevantContext. rewrite Hc. eexists. split; [reflexivity|].
  rewrite buildContextFromNodes_entities, length_fmap.
  unfold slice0. rewrite decide_True by done.
  rewrite length_take. fold (taskTypeOf taskMessage).
  by rewrite (Permutation_length (ContextCompressorFacts.array_sort_Permutation _ _)).
Qed.

(** X10. The summary of the returned context counts what the context
    holds: [entityCount] and [relationshipCount] are the lengths of the two
    lists, and [entityTypes] and [relationshipTypes] give, for every type that
    occurs, how many entities and relationships have it, and have no entry for
    a type that does not occur. *)
Theorem getRelevantContext_summary taskMessage maxNodes ctx :
  getRelevantContext JSON_stringify graph taskMessage maxNodes = Return ctx →
  entityCount (summary ctx) = length (entities ctx) ∧
  relationshipCount (summary ctx) = length (relationships ctx) ∧
  (∀ ty, entityTypes (summary ctx) !! ty = tally (node_type <$> entities ctx) ty) ∧
  (∀ ty, relationshipTypes (summary ctx) !! ty
         = tally (edge_type <$> relationships ctx) ty).
Proof.
  intros (text & _ & ->)%getRelevantContext_Return.
  unfold buildContextFromNodes. simpl.
  split; [done|]. split; [done|]. split; intros ty; apply countByType_tally.
Qed.
End Selection.

Lemma getRelevantContext_from_graph_witness :
  getRelevantContext id twoFiles parserQuery 1
    = Return (buildContextFromNodes twoFiles
                [{| node := fileNode "parser-core.ts"; relevance := Fin (1 # 2) |}]) ∧
  let ctx := buildContextFromNodes twoFiles
               [{| node := fileNode "parser-core.ts"; relevance := Fin (1 # 2) |}] in
  (∀ n, n ∈ entities ctx → n ∈ nodes twoFiles) ∧
  (∀ r, r ∈ relationships ctx → r ∈ edges twoFiles) ∧
  (NoDup (node_id <$> nodes twoFiles) → NoDup (node_id <$> entities ctx)).
Proof.
  assert (getRelevantContext id twoFiles parserQuery 1
          = Return (buildContextFromNodes twoFiles
                      [{| node := fileNode "parser-core.ts"; relevance := Fin (1 # 2) |}]))
    as H by (vm_compute; reflexivity).
  split; [exact H|].
  exact (getRelevantContext_from_graph id twoFiles parserQuery 1 _ H).
Defined.

Lemma getRelevantContext_count_witness :
  content parserQuery = Some "Refactor the parser" ∧ (0 ≤ 1)%Z ∧
  ∃ ctx,
    getRelevantContext id twoFiles parserQuery 1 = Return ctx ∧
    length (entities ctx)
      = (Z.to_nat 1
         `min` length (findRelevantNodes id twoFiles
                         (extractKeywords (toLowerCase "Refactor the parser"))
                         (taskTypeOf parserQuery)))%nat.
Proof.
  split; [reflexivity|]. split; [lia|].
  apply (getRelevantContext_count id twoFiles parserQuery "Refactor the parser" 1);
    [reflexivity | lia].
Defined.

Lemma getRelevantContext_summary_witness :
  getRelevantContext id twoFiles parserQuery 1
    = Return (buildContextFromNodes twoFiles
                [{| node := fileNode "parser-core.ts"; relevance := Fin (1 # 2) |}]) ∧
  let ctx := buildContextFromNodes twoFiles
               [{| node := fileNode "parser-core.ts"; relevance := Fin (1 # 2) |}] in
  entityCount (summary ctx) = length (entities ctx) ∧
  relationshipCount (summary ctx) = length (relationships ctx) ∧
  (∀ ty, entityTypes (summary ctx) !! ty = tally (node_type <$> entities ctx) ty) ∧
  (∀ ty, relationshipTypes (summary ctx) !! ty
         = tally (edge_type <$> relationships ctx) ty).
Proof.
  assert (getRelevantContext id twoFiles parserQuery 1
          = Return (buildContextFromNodes twoFiles
                      [{| node := fileNode "parser-core.ts"; relevance := Fin (1 # 2) |}]))
    as H by (vm_compute; reflexivity).
  split; [exact H|].
  exact (getRelevantContext_summary id twoFiles parserQuery 1 _ H).
Defined.


(** ** Scores and ranking *)

(** The stable sort, for elements of one kind ([P]) on which the comparator
    is an order. *)
Section SortOn.
Context {A : Type} (before : A → A → bool) (R : A → A → Prop) (P : A → Prop).
Hypothesis R_trans : ∀ a b c, P a → P b → P c → R a b → R b c → R a c.
Hypothesis before_R : ∀ y x, P x → P y → before y x = true → R y x.
Hypothesis not_before_R : ∀ y x, P x → P y → before y x = false → R x y.

Lemma sort_insert_on x l : P x → Forall P l → Forall P (sort_insert before x l).
Proof.
  intros Hx Hl. rewrite ContextCompressorFacts.sort_insert_Permutation. by constructor.
Qed.

Lemma sort_insert_sorted_on x l :
  P x → Forall P l → StronglySorted R l → StronglySorted R (sort_insert before x l).
Proof.
  intros Hx Hl Hs. induction Hs as [|y l Hs IH Hy]; simpl.
  - repeat constructor.
  - apply Forall_cons in Hl as [Py Pl]. destruct (before y x) eqn:E.
    + constructor; [by apply IH|].
      rewrite ContextCompressorFacts.sort_insert_Permutation.
      constructor; [by apply before_R | done].
    + apply not_before_R in E; [|done..]. constructor; [by constructor|].
      constructor; [done|].
      apply Forall_forall. intros z Hz.
      apply (R_trans x y z); try done.
      * by apply (proj1 (Forall_forall _ _) Pl).
      * by apply (proj1 (Forall_forall _ _) Hy).
Qed.

Lemma array_sort_sorted_on l : Forall P l → StronglySorted R (array_sort before l).
Proof.
  unfold array_sort. induction 1 as [|x l Hx Hl IH]; simpl; [constructor|].
  apply sort_insert_sorted_on; [done| |done].
  clear IH. induction Hl as [|y l Hy Hl IH]; simpl; [constructor|].
  by apply sort_insert_on.
Qed.
End SortOn.

Section Scores.
Context {NodeData EdgeData : Type}.
Variable JSON_stringify : NodeData → string.
Variable graph : Graph NodeData EdgeData.

Lemma taskTypeRelevance_cases ty (n : GraphNode NodeData) :
  taskTypeRelevance ty n = Fin 0 ∨ taskTypeRelevance ty n = Fin (1 # 2).
Proof. unfold taskTypeRelevance. repeat case_match; auto. Qed.

Lemma taskTypeRelevance_no_bonus ty (n : GraphNode NodeData) :
  ty ∉ bonusTypes → taskTypeRelevance ty n = Fin 0.
Proof.
  unfold bonusTypes. rewrite !not_elem_of_cons. intros (H1 & H2 & _).
  unfold taskTypeRelevance. destruct ty as [ty|]; [|done].
  destruct (String.eqb_spec ty "dependency-check") as [->|_]; [done|].
  destruct (String.eqb_spec ty "static-analysis") as [->|_]; [done|].
  simpl. by destruct (negb _).
Qed.

Lemma divide_bounds m len :
  (m ≤ len)%nat → len ≠ 0%nat →
  ∃ q, divide m len = Fin q ∧ (0 <= q)%Q ∧ (q <= 1)%Q.
Proof.
  intros Hm Hlen. unfold divide. rewrite (proj2 (Nat.eqb_neq _ _) Hlen).
  eexists. split; [done|].
  assert (Z.pos (Pos.of_nat len) = Z.of_nat len) as Hpos.
  { rewrite <- positive_nat_Z. by rewrite Nat2Pos.id. }
  unfold Qle. simpl. rewrite Hpos. lia.
Qed.

Lemma above_zero_Fin q : above_zero (Fin q) = true ↔ (0 < q)%Q.
Proof.
  simpl. rewrite negb_true_iff. split.
  - intros H. apply Qnot_le_lt. intros Hle. apply Qle_bool_iff in Hle. congruence.
  - intros H. destruct (Qle_bool q 0) eqn:E; [|done].
    apply Qle_bool_iff in E. lra.
Qed.

(** What [scoreNode] appends. *)
Lemma scoreNode_spec keywords ty acc (n : GraphNode NodeData) (P : ScoredNode NodeData → Prop) :
  Forall P acc →
  (∀ r b, r = divide (length (filter (λ keyword,
                includes (toLowerCase (JSON_stringify (node_data n))) keyword = true)
                keywords)) (length keywords) →
          b = taskTypeRelevance ty n →
          above_zero r || above_zero b = true →
          P {| node := n; relevance := plus r b |}) →
  Forall P (scoreNode JSON_stringify keywords ty acc n).
Proof.
  intros Hacc Hnew. unfold scoreNode.
  destruct (above_zero _ || above_zero _) eqn:E; [|done].
  apply Forall_app. split; [done|]. constructor; [|constructor]. by apply Hnew.
Qed.

Lemma findRelevantNodes_Forall keywords ty (P : ScoredNode NodeData → Prop) :
  (∀ n r b,
     r = divide (length (filter (λ keyword,
           includes (toLowerCase (JSON_stringify (node_data n))) keyword = true)
           keywords)) (length keywords) →
     b = taskTypeRelevance ty n →
     above_zero r || above_zero b = true →
     P {| node := n; relevance := plus r b |}) →
  Forall P (findRelevantNodes JSON_stringify graph keywords ty).
Proof.
  intros Hnew. unfold findRelevantNodes.
  assert (Forall P []) as Hacc by constructor. revert Hacc.
  generalize (@nil (ScoredNode NodeData)) as acc.
  induction (getAllNodes graph) as [|n l IH]; intros acc Hacc; simpl; [done|].
  apply IH, scoreNode_spec; [done|]. apply Hnew.
Qed.

(** X11. When the query has at least one keyword, every node that
    [findRelevantNodes] reports has a score above 0 and at most 1.5: the share
    of matched keywords, plus the bonus of one half for a fitting task type. *)
Theorem findRelevantNodes_scores keywords ty :
  keywords ≠ [] →
  Forall (λ sn, ∃ q, relevance sn = Fin q ∧ (0 < q)%Q ∧ (q <= 3 # 2)%Q)
         (findRelevantNodes JSON_stringify graph keywords ty).
Proof.
  intros Hk. apply findRelevantNodes_Forall. intros n r b -> -> Habove. simpl.
  destruct (divide_bounds
              (length (filter (λ keyword,
                 includes (toLowerCase (JSON_stringify (node_data n))) keyword = true)
                 keywords)) (length keywords)) as (q & Hq & H0 & H1).
  { apply length_filter. }
  { by destruct keywords. }
  rewrite Hq in *.
  destruct (taskTypeRelevance_cases ty n) as [Hb|Hb]; rewrite Hb in *; simpl.
  - eexists. split; [done|]. apply orb_true_iff in Habove as [Ha|Ha].
    + apply above_zero_Fin in Ha. split; lra.
    + apply above_zero_Fin in Ha. lra.
  - eexists. split; [done|]. split; lra.
Qed.

(** All scores of one query are [NaN] (no keyword) or none is. *)
Lemma findRelevantNodes_isNaN keywords ty :
  Forall (λ sn, isNaN (relevance sn) = (length keywords =? 0)%nat)
         (findRelevantNodes JSON_stringify graph keywords ty).
Proof.
  apply findRelevantNodes_Forall. intros n r b -> -> _. simpl.
  unfold divide. destruct (length keywords =? 0)%nat; [done|].
  by destruct (taskTypeRelevance_cases ty n) as [-> | ->].
Qed.

Lemma less_false_Fin p q : less (Fin p) (Fin q) = false ↔ (q <= p)%Q.
Proof. simpl. rewrite negb_false_iff. apply Qle_bool_iff. Qed.

Lemma ranking_sorted keywords ty :
  StronglySorted notBelow
    (array_sort (λ a b, less (relevance b) (relevance a))
       (findRelevantNodes JSON_stringify graph keywords ty)).
Proof.
  apply (array_sort_sorted_on _ _
           (λ sn, isNaN (relevance sn) = (length keywords =? 0)%nat));
    [| | |apply findRelevantNodes_isNaN]; unfold notBelow.
  - intros a b c Ha Hb Hc. destruct (length keywords =? 0)%nat;
      destruct (relevance a) as [|p], (relevance b) as [|q], (relevance c) as [|r];
      try done.
    rewrite !less_false_Fin. intros ? ?. by apply Qle_trans with q.
  - intros y x _ _.
    destruct (relevance x) as [|p], (relevance y) as [|q]; try done.
    simpl. rewrite negb_true_iff, negb_false_iff. intros H.
    apply Qle_bool_iff. apply Qlt_le_weak, Qnot_le_lt. intros Hle.
    apply Qle_bool_iff in Hle. congruence.
  - by intros y x _ _ H.
Qed.

(** X12. The entities that [getRelevantContext] returns are the best
    scored relevant nodes: they are a leading part of the relevant nodes
    arranged by the sort, and no relevant node that is left out scores higher
    than a returned one. *)
Theorem getRelevantContext_best taskMessage maxNodes ctx :
  getRelevantContext JSON_stringify graph taskMessage maxNodes = Return ctx →
  ∃ text top rest,
    content taskMessage = Some text ∧
    entities ctx = node <$> top ∧
    top ++ rest ≡ₚ findRelevantNodes JSON_stringify graph
                     (extractKeywords (toLowerCase text)) (taskTypeOf taskMessage) ∧
    StronglySorted notBelow top ∧
    ∀ a b, a ∈ top → b ∈ rest → notBelow a b.
Proof.
  intros (text & Hc & ->)%getRelevantContext_Return.
  set (relevant := findRelevantNodes JSON_stringify graph
                     (extractKeywords (toLowerCase text)) (taskTypeOf taskMessage)).
  set (sorted := array_sort (λ a b, less (relevance b) (relevance a)) relevant).
  destruct (slice0_take maxNodes sorted) as [k Hk].
  exists text, (take k sorted), (drop k sorted).
  assert (StronglySorted notBelow (take k sorted ++ drop k sorted)) as Hs
    by (rewrite take_drop; apply ranking_sorted).
  split; [done|]. split; [by rewrite buildContextFromNodes_entities, Hk|].
  split; [rewrite take_drop; apply ContextCompressorFacts.array_sort_Permutation|].
  split; [by apply StronglySorted_app_1_l in Hs|].
  intros a b Ha Hb. by apply (StronglySorted_app_1_elem_of _ _ _ a b) in Hs.
Qed.

(** X13. When no keyword of the query occurs in the text of any node and
    the task type earns no bonus, [getRelevantContext] returns the empty
    context; this is so in particular for a content without any keyword. *)
Theorem getRelevantContext_nothing_relevant taskMessage text maxNodes :
  content taskMessage = Some text →
  taskTypeOf taskMessage ∉ bonusTypes →
  (∀ n keyword, n ∈ nodes graph → keyword ∈ extractKeywords (toLowerCase text) →
                includes (toLowerCase (JSON_stringify (node_data n))) keyword = false) →
  getRelevantContext JSON_stringify graph taskMessage maxNodes = Return emptyContext.
Proof.
  intros Hc Hty Hnone. unfold getRelevantContext. rewrite Hc. fold (taskTypeOf taskMessage).
  assert (findRelevantNodes JSON_stringify graph
            (extractKeywords (toLowerCase text)) (taskTypeOf taskMessage) = []) as ->.
  { unfold findRelevantNodes, getAllNodes.
    assert (∀ l, (∀ n, n ∈ l → n ∈ nodes graph) →
                 fold_left (scoreNode JSON_stringify (extractKeywords (toLowerCase text))
                              (taskTypeOf taskMessage)) l [] = []) as Hfold.
    { induction l as [|n l IH]; intros Hl; simpl; [done|].
      assert (scoreNode JSON_stringify (extractKeywords (toLowerCase text))
                (taskTypeOf taskMessage) [] n = []) as ->.
      { unfold scoreNode. rewrite taskTypeRelevance_no_bonus by done.
        assert (filter (λ keyword,
                  includes (toLowerCase (JSON_stringify (node_data n))) keyword = true)
                  (extractKeywords (toLowerCase text)) = []) as ->.
        { assert (∀ ks, (∀ k, k ∈ ks →
                      includes (toLowerCase (JSON_stringify (node_data n))) k = false) →
                    filter (λ keyword,
                      includes (toLowerCase (JSON_stringify (node_data n))) keyword = true)
                      ks = []) as Hks.
          { induction ks as [|k ks IHks]; intros Hall; [done|].
            rewrite filter_cons_False by (rewrite Hall; [done | left]).
            apply IHks. intros k' Hk'. apply Hall. by right. }
          apply Hks. intros k Hk. apply Hnone; [apply Hl; left | done]. }
        simpl. unfold divide. by destruct (length _ =? 0)%nat. }
      apply IH. intros n' Hn'. apply Hl. by right. }
    by apply Hfold. }
  simpl. unfold slice0. by case_decide; rewrite take_nil.
Qed.
End Scores.

Lemma findRelevantNodes_scores_witness :
  extractKeywords "refactor the parser" ≠ [] ∧
  Forall (λ sn, ∃ q, relevance sn = Fin q ∧ (0 < q)%Q ∧ (q <= 3 # 2)%Q)
         (findRelevantNodes id twoFiles (extractKeywords "refactor the parser") None).
Proof.
  assert (extractKeywords "refactor the parser" ≠ []) as H by (vm_compute; discriminate).
  split; [exact H|].
  exact (findRelevantNodes_scores id twoFiles (extractKeywords "refactor the parser") None H).
Defined.

Lemma getRelevantContext_best_witness :
  getRelevantContext id twoFiles parserQuery 1
    = Return (buildContextFromNodes twoFiles
                [{| node := fileNode "parser-core.ts"; relevance := Fin (1 # 2) |}]) ∧
  let ctx := buildContextFromNodes twoFiles
               [{| node := fileNode "parser-core.ts"; relevance := Fin (1 # 2) |}] in
  ∃ text top rest,
    content parserQuery = Some text ∧
    entities ctx = node <$> top ∧
    top ++ rest ≡ₚ findRelevantNodes id twoFiles
                     (extractKeywords (toLowerCase text)) (taskTypeOf parserQuery) ∧
    StronglySorted notBelow top ∧
    ∀ a b, a ∈ top → b ∈ rest → notBelow a b.
Proof.
  assert (getRelevantContext id twoFiles parserQuery 1
          = Return (buildContextFromNodes twoFiles
                      [{| node := fileNode "parser-core.ts"; relevance := Fin (1 # 2) |}]))
    as H by (vm_compute; reflexivity).
  split; [exact H|].
  exact (getRelevantContext_best id twoFiles parserQuery 1 _ H).
Defined.


Lemma getRelevantContext_nothing_relevant_witness :
  content shortQuery = Some "Fix it" ∧
  (taskTypeOf shortQuery ∉ bonusTypes) ∧
  (∀ n keyword, n ∈ nodes twoFiles → keyword ∈ extractKeywords (toLowerCase "Fix it") →
                includes (toLowerCase (id (node_data n))) keyword = false) ∧
  getRelevantContext id twoFiles shortQuery 20 = Return emptyContext.
Proof.
  assert (taskTypeOf shortQuery ∉ bonusTypes) as H2.
  { intros H. repeat (apply elem_of_cons in H as [H|H]; [discriminate|]).
    by apply elem_of_nil in H. }
  assert (∀ n keyword, n ∈ nodes twoFiles →
            keyword ∈ extractKeywords (toLowerCase "Fix it") →
            includes (toLowerCase (id (node_data n))) keyword = false) as H3.
  { intros n keyword _ Hk. change (keyword ∈ []) in Hk. by apply elem_of_nil in Hk. }
  split; [reflexivity|]. split; [exact H2|]. split; [exact H3|].
  exact (getRelevantContext_nothing_relevant id twoFiles shortQuery "Fix it" 20
           eq_refl H2 H3).
Defined.

(** ** Which edges are returned *)

Section Edges.
Context {NodeData EdgeData : Type}.
Variable graph : Graph NodeData EdgeData.

Lemma snoc_split {A : Type} (l : list A) x l1 y l2 :
  l ++ [x] = l1 ++ y :: l2 →
  (l2 = [] ∧ l1 = l ∧ y = x) ∨ ∃ l2', l2 = l2' ++ [x] ∧ l = l1 ++ y :: l2'.
Proof.
  destruct l2 as [|z l2 _] using rev_ind.
  - intros [-> ->]%app_inj_tail. by left.
  - rewrite app_comm_cons, app_assoc. intros [-> ->]%app_inj_tail.
    right. by exists l2.
Qed.

Lemma buildContextFromNodes_snoc_relationships l (sn : ScoredNode NodeData) :
  relationships (buildContextFromNodes graph (l ++ [sn])) =
  relationships (buildContextFromNodes graph l) ++
  filter (λ edge, edge_to edge ∈ node_id <$> ((node <$> l) ++ [node sn]))
    (filter (λ edge, edge_from edge = node_id (node sn)) (edges graph)).
Proof.
  unfold buildContextFromNodes. cbn [relationships]. rewrite fold_left_app.
  cbn [fold_left]. rewrite addNodeToContext_unfold. cbn [b_relationships]. f_equal.
  apply list_filter_iff. intros e.
  destruct (KnowledgeGraphFacts.building_fold graph l
              {| b_entities := []; b_relationships := []; includedNodeIds := [] |})
    as [[Hids _] _].
  { split; simpl; [intros x; by rewrite !elem_of_nil | by intros r ?%elem_of_nil]. }
  rewrite elem_of_set_add, Hids, building_entities. simpl.
  rewrite fmap_app, elem_of_app. simpl. rewrite list_elem_of_singleton. tauto.
Qed.

(** The relationships that [buildContextFromNodes] collects. *)
Lemma buildContextFromNodes_relationships l r :
  r ∈ relationships (buildContextFromNodes graph l) ↔
  r ∈ edges graph ∧
  ∃ l1 n l2, node <$> l = l1 ++ n :: l2 ∧ edge_from r = node_id n ∧
             edge_to r ∈ node_id <$> (l1 ++ [n]).
Proof.
  induction l as [|sn l IH] using rev_ind.
  - split; [by intros ?%elem_of_nil|].
    intros (_ & l1 & n & l2 & H & _). by destruct l1.
  - rewrite buildContextFromNodes_snoc_relationships, elem_of_app, IH.
    rewrite !list_elem_of_filter. split.
    + intros [(Hr & l1 & n & l2 & Hl & Hfrom & Hto)|(Hto & Hfrom & Hr)].
      * split; [done|]. exists l1, n, (l2 ++ [node sn]).
        split; [by rewrite fmap_app, Hl, <- app_assoc | done].
      * split; [done|]. exists (node <$> l), (node sn), [].
        split; [by rewrite fmap_app | done].
    + intros (Hr & l1 & n & l2 & Hl & Hfrom & Hto).
      rewrite fmap_app in Hl. simpl in Hl.
      apply snoc_split in Hl as [(-> & -> & ->)|(l2' & -> & Hl)].
      * by right.
      * left. split; [done|]. by exists l1, n, l2'.
Qed.

(** X14. [getRelevantContext] returns exactly those edges of the graph
    whose source is a returned entity and whose target is that entity itself
    or an entity returned before it (one that ranks higher). *)
Theorem getRelevantContext_relationships (JSON_stringify : NodeData → string)
    taskMessage maxNodes ctx r :
  getRelevantContext JSON_stringify graph taskMessage maxNodes = Return ctx →
  r ∈ relationships ctx ↔
  r ∈ edges graph ∧
  ∃ earlier n later,
    entities ctx = earlier ++ n :: later ∧ edge_from r = node_id n ∧
    edge_to r ∈ node_id <$> (earlier ++ [n]).
Proof.
  intros (text & _ & ->)%getRelevantContext_Return.
  rewrite buildContextFromNodes_entities. apply buildContextFromNodes_relationships.
Qed.
End Edges.

Lemma getRelevantContext_relationships_witness :
  getRelevantContext id twoFiles parserQuery 20
    = Return (buildContextFromNodes twoFiles
                [{| node := fileNode "parser-core.ts"; relevance := Fin (1 # 2) |};
                 {| node := fileNode "parser-util.ts"; relevance := Fin (1 # 2) |}]) ∧
  let ctx := buildContextFromNodes twoFiles
               [{| node := fileNode "parser-core.ts"; relevance := Fin (1 # 2) |};
                {| node := fileNode "parser-util.ts"; relevance := Fin (1 # 2) |}] in
  (importEdge "parser-core.ts" "parser-util.ts" ∈ relationships ctx ↔
   importEdge "parser-core.ts" "parser-util.ts" ∈ edges twoFiles ∧
   ∃ earlier n later,
     entities ctx = earlier ++ n :: later ∧
     edge_from (importEdge "parser-core.ts" "parser-util.ts") = node_id n ∧
     edge_to (importEdge "parser-core.ts" "parser-util.ts") ∈ node_id <$> (earlier ++ [n])).
Proof.
  assert (getRelevantContext id twoFiles parserQuery 20
          = Return (buildContextFromNodes twoFiles
                      [{| node := fileNode "parser-core.ts"; relevance := Fin (1 # 2) |};
                       {| node := fileNode "parser-util.ts"; relevance := Fin (1 # 2) |}]))
    as H by (vm_compute; reflexivity).
  split; [exact H|].
  exact (getRelevantContext_relationships twoFiles id parserQuery 20 _
           (importEdge "parser-core.ts" "parser-util.ts") H).
Defined.


End KnowledgeGraphQueries.

(* ===================================================================== *)
(** * TaskDecomposer: more on plans and normalization *)
(* ===================================================================== *)

Module TaskDecomposerPlans.
Import Js JsFacts TaskDecomposer TaskDecomposerFacts.

(** ** Plans *)



Lemma taskMapFrom_get_last tasks m x :
  map_get x (taskMapFrom m tasks) =
  match lastWithId x tasks with
  | Some t => Some t
  | None => map_get x m
  end.
Proof.
  unfold taskMapFrom, lastWithId. revert m.
  induction tasks as [|t tasks IH]; intros m; simpl; [done|].
  rewrite IH, map_get_set. destruct (decide (idOf t = x)) as [Heq|Hne].
  - rewrite filter_cons_True by done. rewrite last_cons.
    by destruct (last (filter (λ t, idOf t = x) tasks)).
  - by rewrite filter_cons_False by done.
Qed.

Lemma taskMap_get_last tasks x : map_get x (taskMap tasks) = lastWithId x tasks.
Proof.
  pose proof (taskMapFrom_get_last tasks [] x) as H. unfold taskMapFrom in H.
  unfold taskMap. rewrite H. by destruct (lastWithId x tasks).
Qed.

Lemma omap_taskMap_ids tasks (v : list string) :
  (∀ z, z ∈ v → z ∈ map_keys (taskMap tasks)) →
  taskIds (omap (λ k, map_get k (taskMap tasks)) v) = v.
Proof.
  unfold taskIds. induction v as [|x v IH]; intros Hv; csimpl; [done|].
  destruct (proj2 (map_get_is_Some x (taskMap tasks)) (Hv x (list_elem_of_here _ _)))
    as [t Ht].
  rewrite Ht. csimpl. apply taskMap_get in Ht as [_ ->].
  f_equal. apply IH. intros z Hz. apply Hv. by right.
Qed.

(** X16. For any task list, also one with repeated task ids: the ids of a
    returned plan are pairwise distinct and are exactly the ids of the input,
    and the task that stands for an id is the last input task with that id. *)
Theorem buildExecutionPlan_ids tasks plan :
  buildExecutionPlan tasks = Done plan →
  NoDup (taskIds plan) ∧
  (∀ x, x ∈ taskIds plan ↔ x ∈ taskIds tasks) ∧
  (∀ t, t ∈ plan → lastWithId (idOf t) tasks = Some t).
Proof.
  unfold buildExecutionPlan. pose proof (visitAll_good tasks) as Hgood.
  destruct (visitAll tasks (S (length tasks))) as [st|e|]; simpl; [|done..].
  intros [= <-]. destruct Hgood as [(Hnd & _ & Hkeys & Heo) Hall].
  assert (taskIds (reverse (executionOrder st)) = reverse (visited st)) as Hids.
  { unfold taskIds. rewrite fmap_reverse. f_equal. rewrite Heo.
    by apply omap_taskMap_ids. }
  rewrite Hids. split; [by rewrite reverse_Permutation|]. split.
  - intros x. rewrite elem_of_reverse, <- taskMap_keys. split; [apply Hkeys | apply Hall].
  - intros t. rewrite elem_of_reverse, Heo, list_elem_of_omap.
    intros (x & _ & Hget). pose proof (taskMap_get _ _ _ Hget) as [_ ->].
    by rewrite <- taskMap_get_last.
Qed.

Lemma buildExecutionPlan_ids_witness :
  buildExecutionPlan [mkTask "a" ["b"]; mkTask "b" []; mkTask "a" []]
    = Done [mkTask "a" []; mkTask "b" []] ∧
  NoDup (taskIds [mkTask "a" []; mkTask "b" []]) ∧
  (∀ x, x ∈ taskIds [mkTask "a" []; mkTask "b" []]
        ↔ x ∈ taskIds [mkTask "a" ["b"]; mkTask "b" []; mkTask "a" []]) ∧
  (∀ t, t ∈ [mkTask "a" []; mkTask "b" []] →
        lastWithId (idOf t) [mkTask "a" ["b"]; mkTask "b" []; mkTask "a" []] = Some t).
Proof.
  assert (buildExecutionPlan [mkTask "a" ["b"]; mkTask "b" []; mkTask "a" []]
          = Done [mkTask "a" []; mkTask "b" []]) as H by (vm_compute; reflexivity).
  split; [exact H|].
  exact (buildExecutionPlan_ids _ _ H).
Defined.

Lemma buildExecutionPlan_dependent_first_witness :
  buildExecutionPlan danglingTasks = Done [mkTask "a" ["zz"; "b"]; mkTask "b" []] ∧
  inPlanDependency danglingTasks "a" "b" ∧
  before [mkTask "a" ["zz"; "b"]; mkTask "b" []] "a" "b".
Proof.
  assert (buildExecutionPlan danglingTasks
          = Done [mkTask "a" ["zz"; "b"]; mkTask "b" []]) as H1
    by (vm_compute; reflexivity).
  assert (inPlanDependency danglingTasks "a" "b") as H2.
  { exists (mkTask "a" ["zz"; "b"]). unfold danglingTasks.
    repeat split; simpl; repeat constructor. }
  split; [exact H1|]. split; [exact H2|].
  exact (buildExecutionPlan_dependent_first danglingTasks _ "a" "b" H1 H2).
Defined.

(** ** Fields that the plan does not look at *)

Section Relabel.
Variable f : OrchestrationMessage → OrchestrationMessage.
Hypothesis f_id : ∀ t, idOf (f t) = idOf t.
Hypothesis f_deps : ∀ t, dependencies (metadata (f t)) = dependencies (metadata t).
Variable tasks : list OrchestrationMessage.

Lemma graphs_relabel : graphs (f <$> tasks) = graphs tasks.
Proof.
  assert (∀ tid g d, addDependency (f <$> tasks) tid g d = addDependency tasks tid g d)
    as Hadd.
  { intros tid g d. unfold addDependency.
    by rewrite (taskMap_fmap f tasks f_id), map_has_fmap_snd. }
  assert (∀ g t, populate (f <$> tasks) g (f t) = populate tasks g t) as Hpop.
  { intros g t. unfold populate. rewrite f_id, f_deps.
    generalize (default [] (dependencies (metadata t))) as ds. intros ds. revert g.
    induction ds as [|d ds IH]; intros g; simpl; [done|]. by rewrite Hadd, IH. }
  assert (∀ ts g, fold_left (populate (f <$> tasks)) (f <$> ts) g
                  = fold_left (populate tasks) ts g) as Hfold.
  { induction ts as [|t ts IH]; intros g; csimpl; [done|]. by rewrite Hpop, IH. }
  unfold graphs at 1. rewrite (initGraphs_fmap f tasks f_id). apply Hfold.
Qed.

Lemma for_each_relabel body body' xs st :
  (∀ x st, body' x (mapOrder f st) = outcome_map (mapOrder f) (body x st)) →
  for_each body' xs (mapOrder f st) = outcome_map (mapOrder f) (for_each body xs st).
Proof.
  intros Hb. revert st. induction xs as [|x xs IH]; intros st; simpl; [done|].
  rewrite Hb. destruct (body x st); simpl; [apply IH | done | done].
Qed.

Lemma visit_relabel fuel x st :
  visit (f <$> tasks) fuel x (mapOrder f st)
  = outcome_map (mapOrder f) (visit tasks fuel x st).
Proof.
  revert x st. induction fuel as [|fuel IH]; intros x st; [done|].
  simpl. destruct (set_has x (temp st)); [done|].
  destruct (set_has x (visited st)); [done|].
  rewrite graphs_relabel.
  change {| executionOrder := f <$> executionOrder st;
            visited := visited st; temp := set_add x (temp st) |}
    with (mapOrder f {| executionOrder := executionOrder st; visited := visited st;
                        temp := set_add x (temp st) |}).
  rewrite (for_each_relabel (visit tasks fuel)) by apply IH.
  destruct (for_each (visit tasks fuel) _ _) as [st2| |]; simpl; [|done..].
  rewrite (taskMap_fmap f tasks f_id), map_get_fmap_snd. unfold mapOrder. simpl.
  destruct (map_get x (taskMap tasks)); simpl; [|done].
  by rewrite fmap_app.
Qed.

(** X17. The plan depends on the task ids and the dependency lists only:
    changing any other field of the tasks (priority, status, content, ...)
    changes neither whether [buildExecutionPlan] succeeds nor the order it
    returns. *)
Theorem buildExecutionPlan_relabel :
  buildExecutionPlan (f <$> tasks) = outcome_map (fmap f) (buildExecutionPlan tasks).
Proof.
  unfold buildExecutionPlan, visitAll.
  rewrite (taskMap_fmap f tasks f_id), map_keys_fmap_snd, length_fmap.
  change {| executionOrder := []; visited := []; temp := [] |}
    with (mapOrder f {| executionOrder := []; visited := []; temp := [] |}) at 1.
  rewrite (for_each_relabel
             (λ tid st, if set_has tid (visited st) then Done st
                        else visit tasks (S (length tasks)) tid st)).
  - destruct (for_each _ _ _); simpl; [|done..]. by rewrite fmap_reverse.
  - intros x st. cbv beta. change (visited (mapOrder f st)) with (visited st).
    destruct (set_has x (visited st)); [done|].
    apply visit_relabel.
Qed.
End Relabel.

Lemma buildExecutionPlan_relabel_witness :
  (∀ t, idOf (withPriority 9 t) = idOf t) ∧
  (∀ t, dependencies (metadata (withPriority 9 t)) = dependencies (metadata t)) ∧
  buildExecutionPlan (withPriority 9 <$> twoTasks)
    = outcome_map (fmap (withPriority 9)) (buildExecutionPlan twoTasks).
Proof.
  assert (∀ t, idOf (withPriority 9 t) = idOf t) as H1 by reflexivity.
  assert (∀ t, dependencies (metadata (withPriority 9 t)) = dependencies (metadata t))
    as H2 by reflexivity.
  split; [exact H1|]. split; [exact H2|].
  exact (buildExecutionPlan_relabel (withPriority 9) H1 H2 twoTasks).
Defined.

(** ** Normalization *)




(** X19. Normalization keeps every field that the caller's metadata
    carries, with its value: fields it does not know, and also a falsy value
    of a field it fills in (a priority of 0 stays 0 although the default 1 was
    computed for it). *)
Theorem validateAndEnrichTasks_keeps tasks i task md k v :
  tasks !! i = Some task →
  any_metadata task = Some md →
  md !! k = Some v →
  ∃ r, validateAndEnrichTasks tasks !! i = Some r ∧ enriched_metadata r !! k = Some v.
Proof.
  intros Hi Hmd Hk. exists (validateAndEnrichTask i task). split.
  - unfold validateAndEnrichTasks. by rewrite list_lookup_imap, Hi.
  - unfold validateAndEnrichTask. simpl. rewrite Hmd. simpl.
    by apply lookup_union_Some_l.
Qed.

Lemma validateAndEnrichTasks_keeps_witness :
  [bareTask; taggedTask] !! 1%nat = Some taggedTask ∧
  any_metadata taggedTask = Some (<["priority" := Num 0]> (<["owner" := Str "ops"]> ∅)) ∧
  (<["priority" := Num 0]> (<["owner" := Str "ops"]> ∅) : gmap string Value) !! "priority"
    = Some (Num 0) ∧
  ∃ r, validateAndEnrichTasks [bareTask; taggedTask] !! 1%nat = Some r ∧
       enriched_metadata r !! "priority" = Some (Num 0).
Proof.
  assert ((<["priority" := Num 0]> (<["owner" := Str "ops"]> ∅) : gmap string Value)
            !! "priority" = Some (Num 0)) as H3 by apply lookup_insert_eq.
  split; [reflexivity|]. split; [reflexivity|]. split; [exact H3|].
  exact (validateAndEnrichTasks_keeps [bareTask; taggedTask] 1 taggedTask _
           "priority" (Num 0) eq_refl eq_refl H3).
Defined.

Lemma validateAndEnrichTask_default_id i task :
  any_metadata task ≫= (.!! "taskId") = None →
  enriched_metadata (validateAndEnrichTask i task) !! "taskId"
  = Some (Str ("task-" ++ pretty (i + 1)%nat)).
Proof.
  intros Hnone. unfold validateAndEnrichTask. simpl.
  assert (metadataField task "taskId" = Undefined) as Hfield.
  { unfold metadataField. destruct (any_metadata task) as [md|]; [|done].
    simpl in Hnone. by rewrite Hnone. }
  rewrite lookup_union_r.
  - by rewrite lookup_insert_eq, Hfield.
  - destruct (any_metadata task) as [md|]; simpl in *; [done | apply lookup_empty].
Qed.

(** X20. When no candidate brings a task id of its own, normalization
    numbers the tasks: the record at (0-based) position [i] gets the id
    [task-(i+1)], so the ids of the result are pairwise distinct. *)
Theorem validateAndEnrichTasks_default_ids tasks :
  (∀ task, task ∈ tasks → any_metadata task ≫= (.!! "taskId") = None) →
  (∀ i r, validateAndEnrichTasks tasks !! i = Some r →
          enriched_metadata r !! "taskId" = Some (Str ("task-" ++ pretty (i + 1)%nat))) ∧
  NoDup ((λ r, enriched_metadata r !! "taskId") <$> validateAndEnrichTasks tasks).
Proof.
  intros Hnone.
  assert (∀ i r, validateAndEnrichTasks tasks !! i = Some r →
            enriched_metadata r !! "taskId" = Some (Str ("task-" ++ pretty (i + 1)%nat)))
    as Hid.
  { intros i r. unfold validateAndEnrichTasks. rewrite list_lookup_imap.
    destruct (tasks !! i) as [task|] eqn:E; [|done]. intros [= <-].
    apply validateAndEnrichTask_default_id, Hnone. by eapply list_elem_of_lookup_2. }
  split; [exact Hid|].
  apply NoDup_alt. intros i j x. rewrite !list_lookup_fmap.
  destruct (validateAndEnrichTasks tasks !! i) as [ri|] eqn:Ei; [|done].
  destruct (validateAndEnrichTasks tasks !! j) as [rj|] eqn:Ej; [|done].
  simpl. rewrite (Hid i ri Ei), (Hid j rj Ej). intros [= <-] [= Heq].
  simpl in Heq. apply pretty_nat_inj in Heq. lia.
Qed.

Lemma validateAndEnrichTasks_default_ids_witness :
  (∀ task, task ∈ [bareTask; finishedTask] →
           any_metadata task ≫= (.!! "taskId") = None) ∧
  (∀ i r, validateAndEnrichTasks [bareTask; finishedTask] !! i = Some r →
          enriched_metadata r !! "taskId" = Some (Str ("task-" ++ pretty (i + 1)%nat))) ∧
  NoDup ((λ r, enriched_metadata r !! "taskId")
           <$> validateAndEnrichTasks [bareTask; finishedTask]).
Proof.
  assert (∀ task, task ∈ [bareTask; finishedTask] →
            any_metadata task ≫= (.!! "taskId") = None) as H.
  { intros task [->|[->|[]%elem_of_nil]%elem_of_cons]%elem_of_cons; [reflexivity|].
    simpl. by rewrite !lookup_insert_ne, lookup_empty by done. }
  split; [exact H|].
  exact (validateAndEnrichTasks_default_ids [bareTask; finishedTask] H).
Defined.

(** ** Worker types *)

Lemma toLowerCase_append a b :
  toLowerCase (a ++ b) = (toLowerCase a ++ toLowerCase b)%string.
Proof. induction a as [|c a IH]; simpl; [done | by rewrite IH]. Qed.

Lemma toLowerCase_idemp s : toLowerCase (toLowerCase s) = toLowerCase s.
Proof.
  induction s as [|c s IH]; simpl; [done|].
  by rewrite KnowledgeGraphQueries.lower_lower, IH.
Qed.

(** X21. [inferWorkerType] does not look at letter case: a task name and a
    description get the same worker type as their lowercase forms. *)
Theorem inferWorkerType_case taskName description :
  inferWorkerType (toLowerCase taskName) (toLowerCase description)
  = inferWorkerType taskName description.
Proof.
  unfold inferWorkerType.
  assert (toLowerCase (toLowerCase taskName ++ " " ++ toLowerCase description)
          = toLowerCase (taskName ++ " " ++ description)) as ->; [|done].
  rewrite !toLowerCase_append, !toLowerCase_idemp. done.
Qed.

End TaskDecomposerPlans.

(* ===================================================================== *)
(** * TaskDecomposer: dependency references *)
(* ===================================================================== *)

Module TaskDecomposerParsing.
Import Js JsFacts TaskDecomposer.

(** ** Characters *)

Lemma digit_not_t c : is_digit c = true → Ascii.eqb (lower c) "t" = false.
Proof. destruct c as [[] [] [] [] [] [] [] []]; simpl; intros; done. Qed.

Lemma other_not_t c : is_ref c = false → Ascii.eqb (lower c) "t" = false.
Proof. destruct c as [[] [] [] [] [] [] [] []]; simpl; intros; done. Qed.

Lemma digit_not_space c : is_digit c = true → is_space c = false.
Proof. destruct c as [[] [] [] [] [] [] [] []]; simpl; intros; done. Qed.

Lemma ref_not_digit c : is_ref c = true → is_digit c = false.
Proof. destruct c as [[] [] [] [] [] [] [] []]; simpl; intros; done. Qed.

(** ** Runs *)

Lemma span_spec p s :
  s = ((span p s).1 ++ (span p s).2)%string ∧ allChars p (span p s).1 ∧
  startsWith p (span p s).2 = false.
Proof.
  unfold allChars. induction s as [|c s IH]; simpl; [by repeat split; constructor|].
  destruct (p c) eqn:E; simpl; [|by repeat split; try constructor].
  destruct (span p s) as [a b]. simpl in *. destruct IH as (IH1 & IH2 & IH3).
  split; [by rewrite IH1 at 1|]. split; [by constructor | done].
Qed.

Lemma length_append (a b : string) :
  String.length (a ++ b) = (String.length a + String.length b)%nat.
Proof. induction a as [|c a IH]; simpl; [done | by rewrite IH]. Qed.

Lemma span_length p s :
  (String.length (span p s).2 ≤ String.length s)%nat.
Proof.
  destruct (span_spec p s) as [Hs _]. rewrite Hs at 2. rewrite length_append. lia.
Qed.

Lemma span_app p a rest :
  allChars p a → startsWith p rest = false → span p (a ++ rest) = (a, rest).
Proof.
  unfold allChars. intros Ha Hrest. induction a as [|c a IH]; simpl.
  - destruct rest as [|c rest]; simpl in *; [done | by rewrite Hrest].
  - simpl in Ha. apply Forall_cons in Ha as [-> Ha]. by rewrite IH.
Qed.

Lemma run_Some p s r rest :
  run p s = Some (r, rest) →
  r ≠ EmptyString ∧ allChars p r ∧ s = (r ++ rest)%string ∧
  (String.length rest < String.length s)%nat.
Proof.
  unfold run. destruct (span_spec p s) as (Hs & Hall & _).
  destruct (span p s) as [a b]. simpl in *. destruct a as [|c a]; [done|].
  intros [= <- <-]. split; [done|]. split; [done|]. split; [done|].
  rewrite Hs, length_append. simpl. lia.
Qed.

Lemma run_app p a rest :
  a ≠ EmptyString → allChars p a → startsWith p rest = false →
  run p (a ++ rest) = Some (a, rest).
Proof.
  intros Hne Ha Hrest. unfold run. rewrite span_app by done. by destruct a.
Qed.

Lemma run_None p c s : p c = false → run p (String c s) = None.
Proof. intros H. unfold run. simpl. by rewrite H. Qed.

Lemma afterTask_length s rest :
  afterTask s = Some rest → (String.length rest < String.length s)%nat.
Proof.
  unfold afterTask. destruct s as [|c1 [|c2 [|c3 [|c4 r]]]]; try done.
  destruct (String.eqb _ _); [|done]. intros [= <-]. simpl. lia.
Qed.

Lemma afterTask_None c s : Ascii.eqb (lower c) "t" = false → afterTask (String c s) = None.
Proof.
  intros H. unfold afterTask. destruct s as [|c2 [|c3 [|c4 r]]]; try done.
  simpl. by rewrite H.
Qed.

Lemma afterTask_Some word s :
  toLowerCase word = "task" → afterTask (word ++ s) = Some s.
Proof.
  destruct word as [|c1 [|c2 [|c3 [|c4 [|c5 w]]]]]; simpl; try done.
  intros [= -> -> -> ->]. by rewrite !Ascii.eqb_refl.
Qed.

Lemma matchNumber_Some s digits rest :
  matchNumber s = Some (digits, rest) →
  digits ≠ EmptyString ∧ allChars is_digit digits ∧
  (String.length rest < String.length s)%nat.
Proof.
  unfold matchNumber. destruct (afterTask s) as [after|] eqn:Ha.
  - destruct (run is_digit (span is_space after).2) as [[d r]|] eqn:Hr.
    + intros [= <- <-]. apply run_Some in Hr as (Hne & Hall & _ & Hlen).
      split; [done|]. split; [done|].
      pose proof (span_length is_space after). apply afterTask_length in Ha. lia.
    + intros (? & ? & _ & ?)%run_Some. done.
  - intros (? & ? & _ & ?)%run_Some. done.
Qed.

(** ** The loop *)

(** More rounds than the text has characters change nothing. *)
Lemma parseDependenciesFrom_fuel fuel1 fuel2 s :
  (String.length s ≤ fuel1)%nat → (String.length s ≤ fuel2)%nat →
  parseDependenciesFrom fuel1 s = parseDependenciesFrom fuel2 s.
Proof.
  revert fuel2 s. induction fuel1 as [|fuel1 IH]; intros fuel2 s H1 H2.
  - destruct s; [by destruct fuel2 | simpl in H1; lia].
  - destruct fuel2 as [|fuel2]; [destruct s; [done | simpl in H2; lia]|].
    simpl. destruct s as [|c s]; [done|].
    destruct (matchNumber (String c s)) as [[d r]|] eqn:Hn.
    + apply matchNumber_Some in Hn as (_ & _ & Hlen). f_equal. apply IH; lia.
    + destruct (matchName (String c s)) as [[n r]|] eqn:Hm.
      * apply run_Some in Hm as (_ & _ & _ & Hlen). f_equal. apply IH; lia.
      * apply IH; simpl in *; lia.
Qed.

Lemma parseDependenciesFrom_enough fuel s :
  (String.length s ≤ fuel)%nat → parseDependenciesFrom fuel s = parseDependencies s.
Proof. intros H. by apply parseDependenciesFrom_fuel. Qed.

Lemma parseDependencies_step c s :
  parseDependencies (String c s) =
  match matchNumber (String c s) with
  | Some (digits, rest) => ("task-" ++ digits)%string :: parseDependencies rest
  | None =>
      match matchName (String c s) with
      | Some (name, rest) => name :: parseDependencies rest
      | None => parseDependencies s
      end
  end.
Proof.
  unfold parseDependencies at 1. simpl.
  destruct (matchNumber (String c s)) as [[d r]|] eqn:Hn.
  - apply matchNumber_Some in Hn as (_ & _ & Hlen). f_equal.
    apply parseDependenciesFrom_enough. simpl in Hlen. lia.
  - destruct (matchName (String c s)) as [[n r]|] eqn:Hm.
    + apply run_Some in Hm as (_ & _ & _ & Hlen). f_equal.
      apply parseDependenciesFrom_enough. simpl in Hlen. lia.
    + by apply parseDependenciesFrom_enough.
Qed.

Lemma append_cons c (a b : string) : (String c a ++ b)%string = String c (a ++ b).
Proof. reflexivity. Qed.

Lemma parseDependencies_number_step s digits rest :
  matchNumber s = Some (digits, rest) →
  parseDependencies s = ("task-" ++ digits)%string :: parseDependencies rest.
Proof.
  intros Hm. destruct s as [|c s]; [done|]. by rewrite parseDependencies_step, Hm.
Qed.

Lemma parseDependencies_name_step s name rest :
  matchNumber s = None → matchName s = Some (name, rest) →
  parseDependencies s = name :: parseDependencies rest.
Proof.
  intros Hn Hm. destruct s as [|c s]; [done|]. by rewrite parseDependencies_step, Hn, Hm.
Qed.

(** X22. Every reference that [parseDependencies] returns is either
    [task-] followed by a non-empty run of digits, or a non-empty run of
    letters, hyphens and underscores (which therefore contains no digit). *)
Theorem parseDependencies_shape depString ref :
  ref ∈ parseDependencies depString →
  (∃ digits, ref = ("task-" ++ digits)%string ∧ digits ≠ EmptyString ∧
             allChars is_digit digits) ∨
  (ref ≠ EmptyString ∧ allChars is_ref ref).
Proof.
  unfold parseDependencies. generalize (String.length depString) as fuel.
  intros fuel. revert depString.
  induction fuel as [|fuel IH]; intros s; simpl; [by intros ?%elem_of_nil|].
  destruct s as [|c s]; [by intros ?%elem_of_nil|].
  destruct (matchNumber (String c s)) as [[d r]|] eqn:Hn.
  - apply matchNumber_Some in Hn as (Hne & Hall & _).
    intros [->|Hin]%elem_of_cons; [|by apply (IH r)]. left. by exists d.
  - destruct (matchName (String c s)) as [[n r]|] eqn:Hm; [|apply IH].
    apply run_Some in Hm as (Hne & Hall & _).
    intros [->|Hin]%elem_of_cons; [by right | by apply (IH r)].
Qed.

Lemma parseDependencies_shape_witness :
  "task-" ∈ parseDependencies "task-2" ∧
  ((∃ digits, "task-" = ("task-" ++ digits)%string ∧ digits ≠ EmptyString ∧
              allChars is_digit digits) ∨
   ("task-" ≠ EmptyString ∧ allChars is_ref "task-")).
Proof.
  assert ("task-" ∈ parseDependencies "task-2") as H by (vm_compute; left).
  split; [exact H|]. exact (parseDependencies_shape "task-2" "task-" H).
Defined.

Lemma matchNumber_digits digits rest :
  digits ≠ EmptyString → allChars is_digit digits → startsWith is_digit rest = false →
  matchNumber (digits ++ rest) = Some (digits, rest).
Proof.
  intros Hne Hall Hrest. unfold matchNumber.
  destruct digits as [|c d]; [done|].
  assert (is_digit c = true) as Hc by (by apply Forall_cons in Hall as [? _]).
  rewrite append_cons, afterTask_None by (by apply digit_not_t).
  rewrite <- append_cons. by apply run_app.
Qed.

(** X23. A number is read as the id [task-<number>], whether it stands
    alone or after the word [Task] (in any letter case) and white space; the
    parse then goes on behind the number. *)
Theorem parseDependencies_number digits rest :
  digits ≠ EmptyString → allChars is_digit digits → startsWith is_digit rest = false →
  parseDependencies (digits ++ rest)
    = ("task-" ++ digits)%string :: parseDependencies rest ∧
  ∀ word spaces,
    toLowerCase word = "task" → allChars is_space spaces →
    parseDependencies (word ++ spaces ++ digits ++ rest)
      = ("task-" ++ digits)%string :: parseDependencies rest.
Proof.
  intros Hne Hall Hrest. split.
  - by apply parseDependencies_number_step, matchNumber_digits.
  - intros word spaces Hword Hspaces. apply parseDependencies_number_step.
    unfold matchNumber. rewrite afterTask_Some by done.
    rewrite span_app; [simpl; by rewrite run_app|done|].
    destruct digits as [|c d]; [done|]. rewrite append_cons. simpl.
    apply digit_not_space. by apply Forall_cons in Hall as [? _].
Qed.

Lemma parseDependencies_number_witness :
  "12" ≠ EmptyString ∧ allChars is_digit "12" ∧ startsWith is_digit ", 3" = false ∧
  parseDependencies ("12" ++ ", 3") = ("task-" ++ "12")%string :: parseDependencies ", 3" ∧
  ∀ word spaces,
    toLowerCase word = "task" → allChars is_space spaces →
    parseDependencies (word ++ spaces ++ "12" ++ ", 3")
      = ("task-" ++ "12")%string :: parseDependencies ", 3".
Proof.
  assert ("12" ≠ EmptyString) as H1 by done.
  assert (allChars is_digit "12") as H2 by (repeat constructor).
  assert (startsWith is_digit ", 3" = false) as H3 by reflexivity.
  split; [exact H1|]. split; [exact H2|]. split; [exact H3|].
  exact (parseDependencies_number "12" ", 3" H1 H2 H3).
Defined.

(** X24. A character that is neither a digit nor a letter, hyphen or
    underscore is skipped; and a run of letters, hyphens and underscores that
    does not begin with [Task] is taken as a reference as it stands, after
    which the parse goes on. *)
Theorem parseDependencies_other c s name rest :
  (is_digit c = false → is_ref c = false →
   parseDependencies (String c s) = parseDependencies s) ∧
  (name ≠ EmptyString → allChars is_ref name → startsWith is_ref rest = false →
   afterTask (name ++ rest) = None →
   parseDependencies (name ++ rest) = name :: parseDependencies rest).
Proof.
  split.
  - intros Hd Hr. rewrite parseDependencies_step. unfold matchNumber, matchName.
    rewrite afterTask_None by (by apply other_not_t).
    by rewrite !run_None.
  - intros Hne Hall Hrest Htask. apply parseDependencies_name_step.
    + unfold matchNumber. rewrite Htask. destruct name as [|c' n]; [done|].
      rewrite append_cons. apply run_None, ref_not_digit.
      by apply Forall_cons in Hall as [? _].
    + by apply run_app.
Qed.

Lemma parseDependencies_other_witness :
  (is_digit "," = false → is_ref "," = false →
   parseDependencies (String "," " 3") = parseDependencies " 3") ∧
  ("setup_db" ≠ EmptyString → allChars is_ref "setup_db" →
   startsWith is_ref ", 3" = false → afterTask ("setup_db" ++ ", 3") = None →
   parseDependencies ("setup_db" ++ ", 3") = "setup_db" :: parseDependencies ", 3").
Proof. exact (parseDependencies_other "," " 3" "setup_db" ", 3"). Defined.

End TaskDecomposerParsing.
